(** * go-starter: the request gatekeeper, embedded and verified

    A shallow embedding of the Go sources of the repository: the
    per-address rate limiter and its middleware, client address
    resolution, the JWT issue/validate pair of the auth service, the
    auth handlers' error responses, the health handlers and the startup
    ping loop of the database package.

    Conventions.  Go [int] and [time.Duration] values are [Z]; instants
    are [Z] nanoseconds since the Unix epoch; [map[string]T] is a
    [gmap string T]; a pointer is an index into an explicit store. *)

From Stdlib Require Import ZArith Ascii String Sorted.
From stdpp Require Import base decidable option list gmap strings.

Local Open Scope string_scope.
Local Open Scope Z_scope.

(** ** Go error values *)

Module errors.

(** The package-level error variables made with [errors.New]; each is
    one value, compared with [==]. *)
Inductive sentinel :=
| SqlErrNoRows
| RepoErrUserNotFound
| RepoErrUserAlreadyExists
| ErrInvalidCredentials
| ErrUserExists
| DeadlineExceeded.

(** An error is one of those variables, an error wrapped by
    [fmt.Errorf] with a prefix and the verb %w, or an error value made
    by a library (driver, decoder, validator, hashing, signing) of which
    only the text matters. *)
Inductive error :=
| Sentinel (s : sentinel)
| Wrap (pfx : string) (inner : error)
| Foreign (text : string).

Definition sentinel_text (s : sentinel) : string :=
  match s with
  | SqlErrNoRows => "sql: no rows in result set"
  | RepoErrUserNotFound => "user not found"
  | RepoErrUserAlreadyExists => "user already exists"
  | ErrInvalidCredentials => "invalid credentials"
  | ErrUserExists => "user already exists"
  | DeadlineExceeded => "context deadline exceeded"
  end.

(** The [Error()] method. *)
Fixpoint Error (e : error) : string :=
  match e with
  | Sentinel s => sentinel_text s
  | Wrap pfx inner => pfx +:+ ": " +:+ Error inner
  | Foreign text => text
  end.

Global Instance sentinel_eq_dec : EqDecision sentinel.
Proof. solve_decision. Defined.

(** [err == v] for a package-level error variable [v]. *)
Definition is_sentinel (e : error) (s : sentinel) : bool :=
  match e with
  | Sentinel s' => bool_decide (s' = s)
  | _ => false
  end.

End errors.

(** ** net/http: headers and response writers *)

Module http.

Definition StatusOK : Z := 200.
Definition StatusTooManyRequests : Z := 429.
Definition StatusServiceUnavailable : Z := 503.

(** [textproto.validHeaderFieldByte]: the RFC 7230 token characters. *)
Definition validHeaderFieldByte (c : ascii) : bool :=
  let n := nat_of_ascii c in
  ((48 <=? n) && (n <=? 57) || (65 <=? n) && (n <=? 90)
   || (97 <=? n) && (n <=? 122)
   || bool_decide (c ∈ String.list_ascii_of_string "!#$%&'*+-.^_`|~"))%nat.

Definition is_lower (c : ascii) : bool :=
  let n := nat_of_ascii c in ((97 <=? n) && (n <=? 122))%nat.

Definition is_upper (c : ascii) : bool :=
  let n := nat_of_ascii c in ((65 <=? n) && (n <=? 90))%nat.

Definition to_upper (c : ascii) : ascii := ascii_of_nat (nat_of_ascii c - 32).
Definition to_lower (c : ascii) : ascii := ascii_of_nat (nat_of_ascii c + 32).

(** The rewriting loop of [textproto.canonicalMIMEHeaderKey]: upper case
    at the start and after each dash, lower case elsewhere. *)
Fixpoint canon_loop (upper : bool) (a : list ascii) : list ascii :=
  match a with
  | [] => []
  | c :: rest =>
      let c' := if upper && is_lower c then to_upper c
                else if negb upper && is_upper c then to_lower c
                else c in
      c' :: canon_loop (bool_decide (c' = "-"%char)) rest
  end.

(** [textproto.CanonicalMIMEHeaderKey]: a key holding a byte that is not
    a token character is returned unchanged. *)
Definition CanonicalMIMEHeaderKey (s : string) : string :=
  let a := String.list_ascii_of_string s in
  if forallb validHeaderFieldByte a
  then String.string_of_list_ascii (canon_loop true a)
  else s.

(** [http.Header] is [map[string][]string], keyed by canonical names. *)
Abbreviation Header := (gmap string (list string)).

(** [Header.Get]: the first value stored under the canonical key, or the
    empty string. *)
Definition Get (h : Header) (key : string) : string :=
  match h !! CanonicalMIMEHeaderKey key with
  | Some (v :: _) => v
  | _ => ""
  end.

(** [Header.Set]: replaces whatever is stored under the canonical key. *)
Definition Set_ (h : Header) (key value : string) : Header :=
  <[CanonicalMIMEHeaderKey key := [value]]> h.

(** The part of [http.Request] the middleware and handlers read;
    [RequestID] is the id the logging middleware stored in the request's
    context, if it ran. *)
Record Request := mkRequest {
  Method : string;
  Path : string;
  ReqHeader : Header;
  RemoteAddr : string;
  RequestID : option string;
}.

(** What a handler writes to the body: raw bytes ([w.Write]) or one JSON
    document followed by a newline ([json.NewEncoder(w).Encode(v)]). *)
Inductive chunk (payload : Type) :=
| Bytes (b : string)
| JSONLine (v : payload).
Arguments Bytes {payload} b.
Arguments JSONLine {payload} v.

(** An [http.ResponseWriter]: the mutable header map, the status line
    once it is written together with the headers that went out with it,
    and the body written so far. *)
Record ResponseWriter (payload : Type) := mkRW {
  rw_header : Header;
  rw_status : option Z;
  rw_sent : Header;
  rw_body : list (chunk payload);
}.
Arguments mkRW {payload}.
Arguments rw_header {payload}.
Arguments rw_status {payload}.
Arguments rw_sent {payload}.
Arguments rw_body {payload}.

(** A string between double quotes. *)
Definition quoted (s : string) : string :=
  String (ascii_of_nat 34) (s +:+ String (ascii_of_nat 34) "").

Definition fresh {payload} (h : Header) : ResponseWriter payload :=
  mkRW h None ∅ [].

Definition SetHeader {payload} (key value : string)
  (w : ResponseWriter payload) : ResponseWriter payload :=
  mkRW (Set_ (rw_header w) key value) (rw_status w) (rw_sent w) (rw_body w).

(** [WriteHeader]: the first call fixes status and headers; later calls
    are ignored. *)
Definition WriteHeader {payload} (code : Z)
  (w : ResponseWriter payload) : ResponseWriter payload :=
  match rw_status w with
  | Some _ => w
  | None => mkRW (rw_header w) (Some code) (rw_header w) (rw_body w)
  end.

(** [Write]: implies [WriteHeader(200)] when no status went out yet. *)
Definition Write {payload} (c : chunk payload)
  (w : ResponseWriter payload) : ResponseWriter payload :=
  let w' := WriteHeader StatusOK w in
  mkRW (rw_header w') (rw_status w') (rw_sent w') (rw_body w' ++ [c]).

End http.

(** ** middleware: client address resolution *)

Module clientip.
Import http.

(** [getClientIP] of the middleware package. *)
Definition getClientIP (r : Request) : string :=
  let xff := Get (ReqHeader r) "X-Forwarded-For" in
  if bool_decide (xff ≠ "") then xff
  else
    let xri := Get (ReqHeader r) "X-Real-IP" in
    if bool_decide (xri ≠ "") then xri
    else RemoteAddr r.

End clientip.

(** ** golang.org/x/time/rate: the token bucket *)

Module rate.

(** Nanoseconds per second; a token count is kept in units of
    [1/Second] token, so that refilling [limit] tokens per second adds
    [limit] units per nanosecond and no rounding occurs. *)
Definition Second : Z := 1000000000.
Definition token : Z := Second.
Definition InfDuration : Z := 9223372036854775807.

(** Modelled from the spec: the limiter library is a dependency whose
    code is not among the sources, so the bucket follows the spec's
    token bucket (capacity [burst], refilling at [limit] tokens per
    second up to the capacity, one token consumed per admitted request,
    denial when less than one token is left) with the library's
    interface: [NewLimiter], [Allow], [Reserve], [OK], [Delay],
    [Cancel].  [last] is the instant of the last update, [lastEvent] the
    latest instant a reserved event is due. *)
Record Limiter := mkLimiter {
  limit : Z;
  burst : Z;
  tokens : Z;
  last : Z;
  lastEvent : Z;
}.

(** A new limiter starts with a full bucket. *)
Definition NewLimiter (r b : Z) : Limiter := mkLimiter r b (b * token) 0 0.

(** Units accumulated over [d] nanoseconds. *)
Definition tokensFromDuration (lim : Limiter) (d : Z) : Z :=
  if limit lim <=? 0 then 0 else d * limit lim.

(** Nanoseconds needed to accumulate [x] units, rounded up to a whole
    nanosecond. *)
Definition durationFromTokens (lim : Limiter) (x : Z) : Z :=
  if limit lim <=? 0 then InfDuration else (x + limit lim - 1) / limit lim.

(** The bucket's content at instant [t]: what was there at [last] plus
    the refill since, capped at the capacity.  An instant before [last]
    counts as [last]. *)
Definition advance (t : Z) (lim : Limiter) : Z :=
  let elapsed := t - Z.min t (last lim) in
  Z.min (burst lim * token) (tokens lim + tokensFromDuration lim elapsed).

(** [Allow] at instant [t]: takes one token when a whole one is there. *)
Definition Allow (t : Z) (lim : Limiter) : bool * Limiter :=
  let tk := advance t lim in
  if token <=? tk
  then (true, mkLimiter (limit lim) (burst lim) (tk - token) t t)
  else (false, lim).

Record Reservation := mkReservation {
  ok : bool;
  timeToAct : Z;
  reserved : Z;
}.

(** [Reserve] at instant [t]: takes one token even when that leaves the
    bucket in debt; the reservation is due when the debt is refilled.
    It fails when the capacity is below one token, or when nothing is
    left and the bucket never refills ([limit = 0]). *)
Definition Reserve (t : Z) (lim : Limiter) : Reservation * Limiter :=
  if limit lim =? 0 then
    if token <=? tokens lim
    then (mkReservation true t 1,
          mkLimiter (limit lim) (burst lim) (tokens lim - token)
            (last lim) (lastEvent lim))
    else (mkReservation false t 0, lim)
  else
    let tk := advance t lim - token in
    let wait := if tk <? 0 then durationFromTokens lim (- tk) else 0 in
    if 1 <=? burst lim
    then (mkReservation true (t + wait) 1,
          mkLimiter (limit lim) (burst lim) tk t (t + wait))
    else (mkReservation false 0 0, lim).

Definition OK (r : Reservation) : bool := ok r.

(** [Delay] read at instant [t]: how long until the reservation is due;
    zero when it already is, and at most the largest duration. *)
Definition DelayFrom (r : Reservation) (t : Z) : Z :=
  if ok r then Z.min InfDuration (Z.max 0 (timeToAct r - t)) else InfDuration.

(** The bucket holds a whole token at instant [t]. *)
Definition token_ready (t : Z) (lim : Limiter) : Prop := token ≤ advance t lim.

(** [Cancel] at instant [t]: gives the reserved token back, unless the
    reservation failed or is already due, and less whatever was reserved
    after it. *)
Definition CancelAt (r : Reservation) (t : Z) (lim : Limiter) : Limiter :=
  if negb (ok r) || (reserved r =? 0) || (timeToAct r <? t) then lim
  else
    let restore :=
      reserved r * token - tokensFromDuration lim (lastEvent lim - timeToAct r) in
    if restore <=? 0 then lim
    else
      let tk := Z.min (burst lim * token) (advance t lim + restore) in
      let prevEvent := timeToAct r + durationFromTokens lim (- (reserved r * token)) in
      mkLimiter (limit lim) (burst lim) tk t
        (if (timeToAct r =? lastEvent lim) && negb (prevEvent <? t)
         then prevEvent else lastEvent lim).

End rate.

(** ** time.Duration and its text form *)

Module duration.

Definition digit (x : Z) : ascii :=
  nth (Z.to_nat x) (String.list_ascii_of_string "0123456789") "0"%char.

(** [fmtInt]: decimal digits, ["0"] for zero; a [uint64] has at most
    twenty of them. *)
Fixpoint fmtInt_go (fuel : nat) (u : Z) (acc : string) : string :=
  match fuel with
  | O => acc
  | S fuel' =>
      let acc' := String (digit (u mod 10)) acc in
      if u / 10 =? 0 then acc' else fmtInt_go fuel' (u / 10) acc'
  end.

Definition fmtInt (u : Z) (acc : string) : string := fmtInt_go 20 u acc.

(** [fmtFrac]: the fraction of [v / 10^prec] without trailing zeros,
    with its decimal point unless it is empty; returns the integer part
    too. *)
Fixpoint fmtFrac (prec : nat) (v : Z) (print : bool) (acc : string) : string * Z :=
  match prec with
  | O => (if print then String "."%char acc else acc, v)
  | S prec' =>
      let d := v mod 10 in
      let print' := print || negb (d =? 0) in
      fmtFrac prec' (v / 10) print' (if print' then String (digit d) acc else acc)
  end.

(** [strconv.Itoa]. *)
Definition itoa (z : Z) : string :=
  if z <? 0 then String "-"%char (fmtInt (- z) "") else fmtInt z "".

Definition micro_sign : string :=
  String (ascii_of_nat 194) (String (ascii_of_nat 181) "").

(** [Duration.String] for a non-negative number of nanoseconds. *)
Definition format (u : Z) : string :=
  if u <? rate.Second then
    if u =? 0 then "0s"
    else
      let '(prec, unit_name) :=
        if u <? 1000 then (0%nat, "ns")
        else if u <? 1000000 then (3%nat, micro_sign +:+ "s")
        else (6%nat, "ms") in
      let '(frac, whole) := fmtFrac prec u false unit_name in
      fmtInt whole frac
  else
    let '(frac, secs) := fmtFrac 9 u false "s" in
    let s := fmtInt (secs mod 60) frac in
    let mins := secs / 60 in
    if 0 <? mins then
      let m := fmtInt (mins mod 60) (String "m"%char s) in
      let hours := mins / 60 in
      if 0 <? hours then fmtInt hours (String "h"%char m) else m
    else s.

(** [Duration.String]: a leading minus sign for negative durations. *)
Definition String_ (d : Z) : string :=
  if d <? 0 then String "-"%char (format (- d)) else format d.

End duration.

(** ** internal/logger: what is written to the log *)

Module logger.

Inductive Level := WarnLevel | ErrorLevel | InfoLevel.

(** One structured record: level, message and the [zap] fields. *)
Record Entry := mkEntry {
  level : Level;
  msg : string;
  fields : list (string * string);
}.

(** [FromContext]: a logger that adds the request id when the context
    carries one; [log] writes one record with it. *)
Definition FromContext (request_id : option string) : list (string * string) :=
  match request_id with
  | Some id => [("request_id", id)]
  | None => []
  end.

Definition log (ctx : list (string * string)) (l : Level) (m : string)
  (fs : list (string * string)) : Entry :=
  mkEntry l m (ctx ++ fs).

End logger.

(** ** internal/middleware: the per-address rate limiter *)

Module middleware.
Import http clientip.

(** [RateLimiter]: the map from client address to a limiter pointer; a
    pointer is an index into the store of limiter objects.  The mutex
    [mu] appears in the concurrent model below. *)
Record RateLimiter := mkRateLimiter {
  limiters : gmap string nat;
  rps : Z;
  burst : Z;
}.

(** The rate limiter together with the limiter objects it points to. *)
Record State := mkState {
  rl : RateLimiter;
  heap : list rate.Limiter;
}.

Definition NewRateLimiter (rps burst : Z) : State :=
  mkState (mkRateLimiter ∅ rps burst) [].

(** The body of [getLimiter], executed under [rl.mu]: look the address
    up and, when it is absent, allocate a limiter and store its
    pointer. *)
Definition lookup (ip : string) (st : State) : option nat :=
  limiters (rl st) !! ip.

Definition install (ip : string) (st : State) : nat * State :=
  let p := length (heap st) in
  (p, mkState
        (mkRateLimiter (<[ip := p]> (limiters (rl st))) (rps (rl st)) (burst (rl st)))
        (heap st ++ [rate.NewLimiter (rps (rl st)) (burst (rl st))])).

Definition getLimiter (ip : string) (st : State) : nat * State :=
  match lookup ip st with
  | Some p => (p, st)
  | None => install ip st
  end.

(** One tick of [cleanup]: the whole map is replaced by an empty one. *)
Definition cleanup_tick (st : State) : State :=
  mkState (mkRateLimiter ∅ (rps (rl st)) (burst (rl st))) (heap st).

(** A method call through a limiter pointer. *)
Definition call {A} (p : nat) (f : rate.Limiter → A * rate.Limiter)
  (dflt : A) (st : State) : A * State :=
  match heap st !! p with
  | Some lim => let '(a, lim') := f lim in (a, mkState (rl st) (<[p := lim']> (heap st)))
  | None => (dflt, st)
  end.

(** The clock readings of one pass through the middleware: one
    [time.Now()] inside each of [Allow], [Reserve], [Delay], [Cancel]. *)
Record Clock := mkClock {
  t_allow : Z;
  t_reserve : Z;
  t_delay : Z;
  t_cancel : Z;
}.

(** The spec's [allow(identity)]: [getLimiter] followed by [Allow]. *)
Definition allow (ip : string) (t : Z) (st : State) : bool * State :=
  let '(p, st1) := getLimiter ip st in
  call p (rate.Allow t) false st1.

(** [allow] once per clock reading, in order, for one address. *)
Fixpoint allow_seq (ip : string) (ts : list Z) (st : State) : list bool * State :=
  match ts with
  | [] => ([], st)
  | t :: ts' =>
      let '(b, st1) := allow ip t st in
      let '(bs, st2) := allow_seq ip ts' st1 in
      (b :: bs, st2)
  end.

(** The limiter object an address is mapped to, if any. *)
Definition bucket (ip : string) (st : State) : option rate.Limiter :=
  lookup ip st ≫= λ p, heap st !! p.

(** The literal body of the 429 response: a JSON object with the keys
    error and message. *)
Definition too_many_requests : string :=
  "{" +:+ quoted "error" +:+ ":" +:+ quoted "too many requests" +:+ ","
  +:+ quoted "message" +:+ ":" +:+ quoted "rate limit exceeded" +:+ "}".

(** The value the middleware gives the Retry-After header when the
    address's bucket is [lim]. *)
Definition retry_after (ck : Clock) (lim : rate.Limiter) : string :=
  let reservation := fst (rate.Reserve (t_reserve ck) lim) in
  if rate.OK reservation then duration.String_ (rate.DelayFrom reservation (t_delay ck))
  else "60".

Section handler.
Context {payload : Type}.

(** The handler returned by [RateLimitMiddleware(rps, burst)(next)]. *)
Definition RateLimitMiddleware
  (next : Request → ResponseWriter payload → ResponseWriter payload)
  (ck : Clock) (r : Request) (st : State) (w : ResponseWriter payload)
  : ResponseWriter payload * State * list logger.Entry :=
  let ip := getClientIP r in
  let '(ipLimiter, st1) := getLimiter ip st in
  let '(allowed, st2) := call ipLimiter (rate.Allow (t_allow ck)) false st1 in
  if negb allowed then
    let entry := logger.log (logger.FromContext (RequestID r)) logger.WarnLevel
                   "rate limit exceeded"
                   [("ip", ip); ("path", Path r); ("method", Method r)] in
    let '(reservation, st3) :=
      call ipLimiter (rate.Reserve (t_reserve ck))
        (rate.mkReservation false 0 0) st2 in
    let cancel :=
      call ipLimiter (λ lim, (tt, rate.CancelAt reservation (t_cancel ck) lim)) tt in
    let '(w1, st4) :=
      if negb (rate.OK reservation) then
        let '(_, st4) := cancel st3 in
        (SetHeader "Retry-After" "60" w, st4)
      else
        let delay := rate.DelayFrom reservation (t_delay ck) in
        let '(_, st4) := cancel st3 in
        (SetHeader "Retry-After" (duration.String_ delay) w, st4) in
    let w2 := SetHeader "Content-Type" "application/json" w1 in
    let w3 := WriteHeader StatusTooManyRequests w2 in
    let w4 := Write (Bytes too_many_requests) w3 in
    (w4, st4, [entry])
  else
    (next r w, st2, []).

End handler.

End middleware.

(** ** Invariants of a bucket during a burst *)

Module burst_inv.
Import rate middleware.

(** A bucket of capacity [b] from which [a] tokens were taken since
    instant [t1]; the refill up to [last] is in [tokens]. *)
Definition charged (r b t1 a : Z) (lim : Limiter) : Prop :=
  limit lim = r ∧ rate.burst lim = b ∧ t1 ≤ last lim ∧
  (b - a) * token ≤ tokens lim ≤ (b - a) * token + (last lim - t1) * Z.max 0 r.

(** What is known about the bucket after [k] calls within one refill
    period starting at [t1]: [min k b] tokens were taken. *)
Definition after_calls (r b t1 tprev k : Z) (lim : Limiter) : Prop :=
  let a := Z.min k (Z.max 0 b) in
  (a = 0 ∧ lim = NewLimiter r b) ∨
  (1 ≤ a ∧ charged r b t1 a lim ∧ last lim ≤ tprev).

(** The bucket an address stands for: the limiter it is mapped to, or a
    new one when the address is not in the map yet. *)
Definition view (ip : string) (st : State) (lim : Limiter) : Prop :=
  (lookup ip st = None ∧ lim = NewLimiter (rps (rl st)) (middleware.burst (rl st)))
  ∨ bucket ip st = Some lim.

(** The claim on bursts as the spec words it: the first [N] calls are
    admitted and call [N + 1] is denied. *)
Definition admits_then_denies (N : nat) (res : list bool) : Prop :=
  take N res = replicate N true ∧ res !! N = Some false.

End burst_inv.

(** ** Concurrent callers of the rate limiter

    Goroutines interleave at the granularity of the statements of
    [getLimiter], which run between [rl.mu.Lock()] and the deferred
    [rl.mu.Unlock()], and of the call of [Allow], which the limiter
    serialises with a mutex of its own.  All clock readings of the burst
    are the same instant [now]; the cleanup ticker does not fire. *)

Module concurrent.
Import rate middleware.

(** Where a goroutine stands inside [allow]. *)
Inductive pc :=
| AtLock                (* about to take rl.mu *)
| AtLookup              (* holds rl.mu, about to read rl.limiters[ip] *)
| AtInstall             (* holds rl.mu, the address was absent *)
| AtUnlock (p : nat)    (* holds rl.mu, about to release it and return p *)
| AtAllow (p : nat)     (* back from getLimiter, about to call p.Allow() *)
| Done (admitted : bool).

Record goroutine := mkG { g_ip : string; g_pc : pc }.

(** The shared limiter state, the holder of [rl.mu] if any, and the
    goroutines. *)
Record System := mkSystem {
  shared : State;
  mu : option nat;
  threads : list goroutine;
}.


Definition move (i : nat) (ip : string) (c : pc) (st : State) (m : option nat)
  (s : System) : System :=
  mkSystem st m (<[i := mkG ip c]> (threads s)).

(** One statement of goroutine [i]; [None] when it cannot run: the
    goroutine is blocked on the mutex, has returned, or does not exist. *)
Definition step (now : Z) (i : nat) (s : System) : option System :=
  match threads s !! i with
  | None => None
  | Some g =>
      let ip := g_ip g in
      match g_pc g with
      | AtLock =>
          match mu s with
          | None => Some (move i ip AtLookup (shared s) (Some i) s)
          | Some _ => None
          end
      | AtLookup =>
          match lookup ip (shared s) with
          | Some p => Some (move i ip (AtUnlock p) (shared s) (mu s) s)
          | None => Some (move i ip AtInstall (shared s) (mu s) s)
          end
      | AtInstall =>
          let '(p, st') := install ip (shared s) in
          Some (move i ip (AtUnlock p) st' (mu s) s)
      | AtUnlock p => Some (move i ip (AtAllow p) (shared s) None s)
      | AtAllow p =>
          let '(b, st') := call p (Allow now) false (shared s) in
          Some (move i ip (Done b) st' (mu s) s)
      | Done _ => None
      end
  end.


(** Running a schedule: the goroutine to run at each turn. *)
Fixpoint run (now : Z) (sched : list nat) (s : System) : option System :=
  match sched with
  | [] => Some s
  | i :: sched' =>
      match step now i s with
      | Some s' => run now sched' s'
      | None => None
      end
  end.

(** A new rate limiter and one goroutine per request, each about to
    enter [getLimiter] with its client address. *)
Definition init (r b : Z) (ips : list string) : System :=
  mkSystem (NewRateLimiter r b) None ((λ ip, mkG ip AtLock) <$> ips).

Fixpoint countb {A} (f : A → bool) (l : list A) : nat :=
  match l with
  | [] => 0
  | x :: l' => (if f x then 1 else 0) + countb f l'
  end.

Definition returned (ip : string) (b : bool) (g : goroutine) : bool :=
  bool_decide (g_ip g = ip) &&
  match g_pc g with Done b' => bool_decide (b' = b) | _ => false end.

(** How many calls for [ip] were admitted, and how many denied. *)
Definition admitted (ip : string) (s : System) : nat :=
  countb (returned ip true) (threads s).
Definition callers (ip : string) (s : System) : nat :=
  countb (λ g, bool_decide (g_ip g = ip)) (threads s).





End concurrent.

(** ** pkg/database: the startup ping loop *)

Module database.
Import errors.

(** One call of [db.PingContext]: when it was started, when it
    returned, and what it returned ([None] is [nil]). *)
Record Probe := mkProbe {
  started : Z;
  returned : Z;
  result : option error;
}.

(** What [pingWithRetry] did: the probes in order, the instant it
    returned, the error it returned and the warnings it logged. *)
Record Run := mkRun {
  probes : list Probe;
  finished_at : Z;
  outcome : option error;
  warnings : list logger.Entry;
}.

Definition add_probe (p : Probe) (w : list logger.Entry) (r : Run) : Run :=
  mkRun (p :: probes r) (finished_at r) (outcome r) (w ++ warnings r).

Section ping.

(** The storage side: probe number [i] started at instant [t] returns
    at [fst (ping i t)] with [snd (ping i t)]. *)
Variable ping : nat → Z → Z * option error.

(** [select] picks either case when the timer fires at the very instant
    the context expires; [timer_wins i] tells which after probe [i]. *)
Variable timer_wins : nat → bool.

(** The deadline of [ctx]. *)
Variable deadline : Z.

(** The loop of [pingWithRetry] from iteration [i] at instant [t], with
    [n] iterations left and [err] the error of the last probe. *)
Fixpoint retry_loop (n i : nat) (t : Z) (err : option error) (maxRetries : Z) : Run :=
  match n with
  | O => mkRun [] t err []
  | S n' =>
      let '(t1, res) := ping i t in
      let probe := mkProbe t t1 res in
      match res with
      | None => mkRun [probe] t1 None []
      | Some e =>
          let warning :=
            logger.log [] logger.WarnLevel "failed to ping database, retrying"
              [("attempt", duration.itoa (Z.of_nat i + 1));
               ("max_retries", duration.itoa maxRetries);
               ("error", Error e)] in
          let fire := t1 + rate.Second * (Z.of_nat i + 1) in
          let expired := mkRun [probe] (Z.max t1 deadline)
                           (Some (Sentinel DeadlineExceeded)) [warning] in
          if deadline <=? t1 then
            mkRun [probe] t1 (Some (Sentinel DeadlineExceeded)) [warning]
          else if (fire <? deadline) || ((fire =? deadline) && timer_wins i) then
            add_probe probe [warning] (retry_loop n' (S i) fire (Some e) maxRetries)
          else expired
      end
  end.

Definition pingWithRetry (t : Z) (maxRetries : Z) : Run :=
  retry_loop (Z.to_nat maxRetries) 0 t None maxRetries.

(** The shapes one iteration gives a run: the probe succeeds; it fails
    and the context expires before the backoff timer fires; it fails and
    the timer fires first, so the loop goes round again. *)
Inductive loop_case (n i : nat) (t : Z) (mr : Z) : Run → Prop :=
| case_success t1 :
    ping i t = (t1, None) →
    loop_case n i t mr (mkRun [mkProbe t t1 None] t1 None [])
| case_expired t1 e w fin :
    ping i t = (t1, Some e) →
    (deadline ≤ t1 ∧ fin = t1 ∨
     t1 < deadline ≤ t1 + rate.Second * (Z.of_nat i + 1) ∧ fin = deadline) →
    loop_case n i t mr
      (mkRun [mkProbe t t1 (Some e)] fin (Some (Sentinel DeadlineExceeded)) w)
| case_retry t1 e w :
    ping i t = (t1, Some e) → t1 < deadline →
    t1 + rate.Second * (Z.of_nat i + 1) ≤ deadline →
    loop_case n i t mr
      (add_probe (mkProbe t t1 (Some e)) w
         (retry_loop n (S i) (t1 + rate.Second * (Z.of_nat i + 1)) (Some e) mr)).

End ping.

(** [New]: opens the pool at instant [t] and pings it with five tries
    under a ten second timeout; an error is returned wrapped. *)
Definition New (ping : nat → Z → Z * option error) (timer_wins : nat → bool)
  (t : Z) : Run * option error :=
  let run := pingWithRetry ping timer_wins (t + 10 * rate.Second) t 5 in
  match outcome run with
  | Some e => (run, Some (Wrap "failed to ping database" e))
  | None => (run, None)
  end.

(** [db.Health]: one ping, its error wrapped. *)
Definition Health (ping : option error) : option error :=
  match ping with
  | Some e => Some (Wrap "database health check failed" e)
  | None => None
  end.

(** The start of [main]: a failure of [New] is fatal, otherwise the
    server goes on to accept traffic. *)
Inductive Startup :=
| Fatal (m : string) (e : error)
| Serving.

Definition main_startup (ping : nat → Z → Z * option error)
  (timer_wins : nat → bool) (t : Z) : Startup :=
  match snd (New ping timer_wins t) with
  | Some e => Fatal "failed to connect to database" e
  | None => Serving
  end.

End database.

(** ** internal/handlers: health checks *)

Module health.
Import http errors.

Record HealthResponse := mkHealth {
  Status : string;
  Database : string;
}.

Section handlers.
Context {payload : Type} (encode : HealthResponse → payload).

(** [Healthz], given what [db.PingContext] returns for this request. *)
Definition Healthz (ping : option error) (r : Request)
  (w : ResponseWriter payload) : ResponseWriter payload * list logger.Entry :=
  let '(response, statusCode, logs) :=
    match database.Health ping with
    | Some err =>
        (mkHealth "unhealthy" "unhealthy", StatusServiceUnavailable,
         [logger.log (logger.FromContext (RequestID r)) logger.ErrorLevel
            "database health check failed" [("error", Error err)]])
    | None => (mkHealth "ok" "ok", StatusOK, [])
    end in
  let w1 := SetHeader "Content-Type" "application/json" w in
  let w2 := WriteHeader statusCode w1 in
  (Write (JSONLine (encode response)) w2, logs).

(** [Ready]. *)
Definition Ready (ping : option error) (r : Request)
  (w : ResponseWriter payload) : ResponseWriter payload * list logger.Entry :=
  Healthz ping r w.

End handlers.

End health.

(** ** JSON values and float64 numbers *)

Module json.

(** A JSON number as written: the exact value [numer / denom] of its
    decimal literal. *)
Record Number := mkNumber { numer : Z; denom : positive }.

Definition of_int (z : Z) : Number := mkNumber z 1.

(** A JSON value as written; arrays and objects nested inside a value
    are kept as their text. *)
Inductive Value :=
| Null
| Bool (b : bool)
| Num (n : Number)
| Str (s : string)
| Composite (text : string).

(** A float64 that is not an infinity or NaN: [mant * 2 ^ expo]. *)
Record float64 := mkFloat { mant : Z; expo : Z }.

(** What [json.Unmarshal] stores in an [interface{}]. *)
Inductive Any :=
| ANil
| ABool (b : bool)
| AFloat (f : float64)
| AString (s : string)
| AComposite (text : string).

(** The [e] with [2^e <= a / d < 2^(e+1)], for positive [a] and [d]. *)
Definition floor_log2 (a d : Z) : Z :=
  let k := Z.log2 a - Z.log2 d in
  let below := if 0 <=? k then a <? d * 2 ^ k else a * 2 ^ (- k) <? d in
  if below then k - 1 else k.

(** [strconv.ParseFloat(s, 64)] on the literal's value: the nearest
    float64, ties to the even mantissa, subnormal below [2^-1022];
    [None] when that is an infinity. *)
Definition round64 (n : Number) : option float64 :=
  if numer n =? 0 then Some (mkFloat 0 0)
  else
    let a := Z.abs (numer n) in
    let d := Z.pos (denom n) in
    let sh := Z.max (floor_log2 a d) (-1022) - 52 in
    let '(N, D) := if sh <=? 0 then (a * 2 ^ (- sh), d) else (a, d * 2 ^ sh) in
    let q := N / D in
    let r := N mod D in
    let m := if 2 * r <? D then q
             else if D <? 2 * r then q + 1
             else if Z.even q then q else q + 1 in
    if (0 <=? sh) && (2 ^ 1024 <=? m * 2 ^ sh) then None
    else Some (mkFloat (Z.sgn (numer n) * m) sh).

Definition is_zero (f : float64) : bool := mant f =? 0.

(** Rounding a float64 down to an integer, and towards zero. *)
Definition floor (f : float64) : Z :=
  if 0 <=? expo f then mant f * 2 ^ expo f else mant f / 2 ^ (- expo f).
Definition trunc (f : float64) : Z :=
  if 0 <=? expo f then mant f * 2 ^ expo f else Z.quot (mant f) (2 ^ (- expo f)).

Definition MinInt64 : Z := - 2 ^ 63.

(** The conversion [int64(f)] for an integral [z = trunc f]; a value out
    of range gives the smallest integer, as on amd64. *)
Definition to_int64 (z : Z) : Z :=
  if (MinInt64 <=? z) && (z <? 2 ^ 63) then z else MinInt64.

Definition decode_value (v : Value) : option Any :=
  match v with
  | Null => Some ANil
  | Bool b => Some (ABool b)
  | Num n => AFloat <$> round64 n
  | Str s => Some (AString s)
  | Composite t => Some (AComposite t)
  end.

(** Decoding an object into a [map[string]interface{}]; it fails when
    a number is out of range. *)
Definition decode_object (m : gmap string Value) : option (gmap string Any) :=
  if bool_decide (map_Forall (λ _ v, is_Some (decode_value v)) m)
  then Some (omap decode_value m)
  else None.

End json.

(** ** github.com/golang-jwt/jwt/v5, as far as the auth service uses it *)

Module jwt.
Import json.

Inductive result (E A : Type) :=
| Err (e : E)
| Ok (a : A).
Arguments Err {E A} e.
Arguments Ok {E A} a.

Inductive Hash := SHA256 | SHA384 | SHA512.

(** The registered signing methods, by family. *)
Inductive SigningMethod :=
| SigningMethodHMAC (h : Hash)
| SigningMethodRSA (h : Hash)
| SigningMethodRSAPSS (h : Hash)
| SigningMethodECDSA (h : Hash)
| SigningMethodEd25519
| SigningMethodNone.

Definition methods : list (string * SigningMethod) :=
  [("HS256", SigningMethodHMAC SHA256); ("HS384", SigningMethodHMAC SHA384);
   ("HS512", SigningMethodHMAC SHA512);
   ("RS256", SigningMethodRSA SHA256); ("RS384", SigningMethodRSA SHA384);
   ("RS512", SigningMethodRSA SHA512);
   ("PS256", SigningMethodRSAPSS SHA256); ("PS384", SigningMethodRSAPSS SHA384);
   ("PS512", SigningMethodRSAPSS SHA512);
   ("ES256", SigningMethodECDSA SHA256); ("ES384", SigningMethodECDSA SHA384);
   ("ES512", SigningMethodECDSA SHA512);
   ("EdDSA", SigningMethodEd25519); ("none", SigningMethodNone)].

(** [GetSigningMethod]: the method registered under the [alg] name. *)
Definition GetSigningMethod (alg : string) : option SigningMethod :=
  (λ found, snd (snd found)) <$> list_find (λ p, fst p = alg) methods.

Definition is_hmac (m : SigningMethod) : bool :=
  match m with SigningMethodHMAC _ => true | _ => false end.

(** One of the first two dot-separated parts of a token: base64url text
    of a JSON object, or anything else.  The JSON text [null] decodes to
    the empty map and is not told apart from the empty object. *)
Inductive Segment :=
| Garbled
| Object (fields : gmap string Value).

(** The third part.  Cryptography is ideal: the tag HMAC computes for a
    hash, a key and a signing input is a value of its own, equal to no
    other byte string and to no tag for another hash, key or input. *)
Inductive Signature :=
| Tag (h : Hash) (key : string) (header claims : Segment)
| OtherBytes (raw : string).

(** A token string, up to the spelling of its base64url and JSON text. *)
Inductive TokenString :=
| NotThreeSegments
| Compact (header claims : Segment) (signature : option Signature).

Inductive ClaimError :=
| ErrTokenExpired
| ErrTokenNotValidYet
| ErrInvalidType (claim : string).

Inductive Error :=
| ErrTokenMalformed
| ErrTokenUnverifiable
| ErrTokenSignatureInvalid
| ErrTokenInvalidClaims (errs : list ClaimError).

Record Token := mkToken {
  Method : SigningMethod;
  Header : gmap string Any;
  Claims : gmap string Any;
  Valid : bool;
}.

Global Instance Hash_eq_dec : EqDecision Hash.
Proof. solve_decision. Defined.
Global Instance Number_eq_dec : EqDecision Number.
Proof. solve_decision. Defined.
Global Instance Value_eq_dec : EqDecision Value.
Proof. solve_decision. Defined.
Global Instance Segment_eq_dec : EqDecision Segment.
Proof. solve_decision. Defined.
Global Instance Signature_eq_dec : EqDecision Signature.
Proof. solve_decision. Defined.
Global Instance ClaimError_eq_dec : EqDecision ClaimError.
Proof. solve_decision. Defined.

Definition decode_segment (s : Segment) : option (gmap string Any) :=
  match s with
  | Garbled => None
  | Object fields => decode_object fields
  end.

(** [Verify] of a signing method with a byte-slice key: the HMAC
    methods compare the signature with the tag of the signing input;
    every other method refuses such a key. *)
Definition Verify (m : SigningMethod) (header claims : Segment)
  (sig : Signature) (key : string) : bool :=
  match m with
  | SigningMethodHMAC h => bool_decide (sig = Tag h key header claims)
  | _ => false
  end.

(** The instant a numeric date stands for, in seconds: the float64
    rounded down. *)
Definition seconds (f : float64) : Z :=
  if bool_decide (to_int64 (trunc f) = trunc f) then floor f else MinInt64.

(** [MapClaims.parseNumericDate]: absent and zero count as not set. *)
Definition parseNumericDate (claims : gmap string Any) (key : string)
  : result ClaimError (option Z) :=
  match claims !! key with
  | None => Ok None
  | Some (AFloat f) => if is_zero f then Ok None else Ok (Some (seconds f))
  | Some _ => Err (ErrInvalidType key)
  end.

(** [Validator.Validate] with the default options: [exp] and [nbf] are
    checked against the clock when present; all failures are joined.
    [now] is in nanoseconds. *)
Definition Validate (now : Z) (claims : gmap string Any) : list ClaimError :=
  (match parseNumericDate claims "exp" with
   | Err e => [e]
   | Ok None => []
   | Ok (Some exp) => if now <? exp * rate.Second then [] else [ErrTokenExpired]
   end) ++
  (match parseNumericDate claims "nbf" with
   | Err e => [e]
   | Ok None => []
   | Ok (Some nbf) => if now <? nbf * rate.Second then [ErrTokenNotValidYet] else []
   end).

(** Modelled from the spec: the token library is a dependency whose
    code is not among the sources, so parsing follows the spec's
    validation of a token (three parts that decode, a signature made
    with the algorithm the header names and the key the caller's key
    function hands out, expiry checked against the clock) with the
    library's interface: [Parse(tokenString, keyFunc)] at instant
    [now]. *)
Definition Parse {E} (keyFunc : Token → result E string) (now : Z)
  (tokenString : TokenString) : result Error Token :=
  match tokenString with
  | NotThreeSegments => Err ErrTokenMalformed
  | Compact header claims signature =>
      match decode_segment header with
      | None => Err ErrTokenMalformed
      | Some hdr =>
      match decode_segment claims with
      | None => Err ErrTokenMalformed
      | Some cls =>
      match hdr !! "alg" with
      | Some (AString alg) =>
          match GetSigningMethod alg with
          | None => Err ErrTokenUnverifiable
          | Some method =>
              match signature with
              | None => Err ErrTokenMalformed
              | Some sig =>
                  let token := mkToken method hdr cls false in
                  match keyFunc token with
                  | Err _ => Err ErrTokenUnverifiable
                  | Ok key =>
                      if Verify method header claims sig key then
                        match Validate now cls with
                        | [] => Ok (mkToken method hdr cls true)
                        | errs => Err (ErrTokenInvalidClaims errs)
                        end
                      else Err ErrTokenSignatureInvalid
                  end
              end
          end
      | _ => Err ErrTokenUnverifiable
      end end end
  end.

(** [NewWithClaims(method, claims)] followed by [SignedString(key)],
    for an HMAC method and a byte-slice key. *)
Definition SignedString (h : Hash) (alg : string)
  (claims : gmap string Value) (key : string) : result errors.error TokenString :=
  let header := Object {[ "typ" := Str "JWT"; "alg" := Str alg ]} in
  Ok (Compact header (Object claims) (Some (Tag h key header (Object claims)))).

End jwt.

(** ** internal/services: tokens *)

Module services.
Import json jwt.

Record AuthService := mkAuthService { jwtSecret : string }.

(** [time.Time.Unix] of an instant in nanoseconds. *)
Definition Unix (t : Z) : Z := t / rate.Second.

Definition Hour : Z := 3600 * rate.Second.

Inductive ValidateError :=
| ParseFailed (e : jwt.Error)       (* failed to parse token: ... *)
| InvalidToken                      (* invalid token *)
| InvalidTokenClaims                (* invalid token claims *)
| InvalidTokenSubject.              (* invalid token subject *)

(** The key function of [ValidateToken]. *)
Definition keyFunc (s : AuthService) (token : Token) : result string string :=
  if is_hmac (Method token) then Ok (jwtSecret s)
  else Err "unexpected signing method".

(** [ValidateToken] at instant [now]; [Parse] always hands back
    [MapClaims], so the claims type assertion cannot fail. *)
Definition ValidateToken (s : AuthService) (now : Z) (tokenString : TokenString)
  : result ValidateError Z :=
  match Parse (keyFunc s) now tokenString with
  | Err e => Err (ParseFailed e)
  | Ok token =>
      if negb (Valid token) then Err InvalidToken
      else
        match Claims token !! "sub" with
        | Some (AFloat sub) => Ok (to_int64 (trunc sub))
        | _ => Err InvalidTokenSubject
        end
  end.

(** [generateToken] at instant [now]. *)
Definition generateToken (s : AuthService) (now : Z) (userID : Z)
  : result errors.error TokenString :=
  let claims : gmap string Value :=
    {[ "sub" := Num (of_int userID);
       "iat" := Num (of_int (Unix now));
       "exp" := Num (of_int (Unix (now + 24 * Hour))) ]} in
  match SignedString SHA256 "HS256" claims (jwtSecret s) with
  | Err e => Err (errors.Wrap "failed to sign token" e)
  | Ok tokenString => Ok tokenString
  end.




(** The header names an algorithm of the HMAC family. *)
Definition claims_hmac_alg (header : Segment) : Prop :=
  ∃ hdr alg h, decode_segment header = Some hdr ∧
               hdr !! "alg" = Some (AString alg) ∧
               GetSigningMethod alg = Some (SigningMethodHMAC h).

(** The token has three parts that decode, names an algorithm of the
    HMAC family and carries the tag of its first two parts under the
    service's secret; [cls] are its claims. *)
Definition verified (s : AuthService) (tokenString : TokenString)
  (cls : gmap string Any) : Prop :=
  ∃ header claims hdr alg h,
    tokenString = Compact header claims (Some (Tag h (jwtSecret s) header claims)) ∧
    decode_segment header = Some hdr ∧ decode_segment claims = Some cls ∧
    hdr !! "alg" = Some (AString alg) ∧
    GetSigningMethod alg = Some (SigningMethodHMAC h).

(** The token is not three parts, or its header or claims part does not
    decode, or its algorithm is registered and its signature part does
    not decode. *)
Definition malformed (tokenString : TokenString) : Prop :=
  match tokenString with
  | NotThreeSegments => True
  | Compact header claims signature =>
      decode_segment header = None ∨ decode_segment claims = None ∨
      (signature = None ∧
       ∃ hdr alg, decode_segment header = Some hdr ∧
                  hdr !! "alg" = Some (AString alg) ∧
                  is_Some (GetSigningMethod alg))
  end.

End services.

(** ** The rate limiter over a mix of requests *)

Module traffic.
Import rate middleware.

(** Every pointer in the map points into the store, and no two
    addresses share a limiter. *)
Definition wf (st : State) : Prop :=
  (∀ ip p, lookup ip st = Some p → (p < length (heap st))%nat) ∧
  (∀ ip1 ip2 p, lookup ip1 st = Some p → lookup ip2 st = Some p → ip1 = ip2).

(** [allow] for a sequence of requests, each with its client address and
    its clock reading. *)
Fixpoint serve (reqs : list (string * Z)) (st : State) : list bool * State :=
  match reqs with
  | [] => ([], st)
  | (ip, t) :: reqs' =>
      let '(b, st1) := allow ip t st in
      let '(bs, st2) := serve reqs' st1 in
      (b :: bs, st2)
  end.

(** The decisions of [serve] for the requests of one address, and the
    clock readings of those requests. *)
Fixpoint decisions (ip : string) (reqs : list (string * Z)) (res : list bool)
  : list bool :=
  match reqs, res with
  | (ip', _) :: reqs', b :: res' =>
      if bool_decide (ip' = ip) then b :: decisions ip reqs' res'
      else decisions ip reqs' res'
  | _, _ => []
  end.

Definition times_of (ip : string) (reqs : list (string * Z)) : list Z :=
  snd <$> filter (λ req, fst req = ip) reqs.



End traffic.

(** ** The backoff waits of the startup loop *)

Module backoff.

(** The waits of [n] iterations from iteration [i] on: iteration [k]
    waits [k + 1] seconds after its probe. *)
Fixpoint backoff_sum (n i : nat) : Z :=
  match n with
  | O => 0
  | S n' => rate.Second * (Z.of_nat i + 1) + backoff_sum n' (S i)
  end.

(** No probe returns before it was started. *)
Definition causal (ping : nat → Z → Z * option errors.error) : Prop :=
  ∀ i t, t ≤ fst (ping i t).

End backoff.

(** ** When the backoff timer beats the context *)

Module timer.

(** After probe [i] returned at [t1] with an error, [select] takes the
    timer's case: the timer fires before the deadline, or at the very
    instant of the deadline and wins the tie. *)
Definition fires (timer_wins : nat → bool) (deadline : Z) (i : nat) (t1 : Z) : Prop :=
  t1 + rate.Second * (Z.of_nat i + 1) < deadline ∨
  (t1 + rate.Second * (Z.of_nat i + 1) = deadline ∧ timer_wins i = true).

End timer.

(** ** internal/models *)

Module models.

Record User := mkUser {
  ID : Z;
  Email : string;
  PasswordHash : string;
  CreatedAt : Z;
  UpdatedAt : Z;
}.

(** [LoginRequest] and [RegisterRequest] have the same two fields. *)
Record LoginRequest := mkLoginRequest {
  login_email : string;
  login_password : string;
}.

Record RegisterRequest := mkRegisterRequest {
  register_email : string;
  register_password : string;
}.

Record AuthResponse := mkAuthResponse {
  resp_token : jwt.TokenString;
  resp_user : User;
}.

Record ErrorResponse := mkErrorResponse {
  err_error : string;
  err_message : string;
}.

End models.

(** ** internal/repositories: the users table *)

Module repositories.
Import errors models.
Import jwt (result, Ok, Err).

(** The storage side: what the row of each statement scans to, or the
    error of the driver.  The INSERT returns the new id and the two
    timestamps. *)
Record Storage := mkStorage {
  select_by_email : string → result error User;
  insert_user : string → string → result error (Z * Z * Z);
}.

(** The error text by which [Create] recognises a duplicate address. *)
Definition duplicate_key_text : string :=
  "pq: duplicate key value violates unique constraint "
  +:+ http.quoted "users_email_key".

(** [Create]: the record is filled in place when the row scans. *)
Definition Create (db : Storage) (user : User) : User * option error :=
  match insert_user db (Email user) (PasswordHash user) with
  | Ok (id, created, updated) =>
      (mkUser id (Email user) (PasswordHash user) created updated, None)
  | Err err =>
      if bool_decide (Error err = duplicate_key_text)
      then (user, Some (Sentinel RepoErrUserAlreadyExists))
      else (user, Some (Wrap "failed to create user" err))
  end.

(** [GetByEmail] returns a user exactly when it returns no error, so
    its pair of results is one [result]. *)
Definition GetByEmail (db : Storage) (email : string) : result error User :=
  match select_by_email db email with
  | Ok user => Ok user
  | Err err =>
      if is_sentinel err SqlErrNoRows
      then Err (Sentinel RepoErrUserNotFound)
      else Err (Wrap "failed to get user by email" err)
  end.

End repositories.

(** ** internal/services: registration and login *)

Module authservice.
Import errors models repositories.
Import jwt (result, Ok, Err).

(** The two calls into [bcrypt]. *)
Record Bcrypt := mkBcrypt {
  GenerateFromPassword : string → result error string;
  CompareHashAndPassword : string → string → option error;
}.

(** What a call of the service did outside the process, in order. *)
Inductive Op :=
| OpSelect (email : string)
| OpHash (password : string)
| OpInsert (email hash : string)
| OpCompare (hash password : string)
| OpSign (userID : Z).

Section service.
Variable s : services.AuthService.
Variable db : Storage.
Variable bc : Bcrypt.

(** The clock reading of [generateToken]. *)
Variable now : Z.

Definition Register (req : RegisterRequest) : result error AuthResponse * list Op :=
  let tr1 := [OpSelect (register_email req)] in
  let rest (existingUser : option User) :=
    match existingUser with
    | Some _ => (Err (Sentinel ErrUserExists), tr1)
    | None =>
        let tr2 := (tr1 ++ [OpHash (register_password req)])%list in
        match GenerateFromPassword bc (register_password req) with
        | Err e => (Err (Wrap "failed to hash password" e), tr2)
        | Ok passwordHash =>
            let user := mkUser 0 (register_email req) passwordHash 0 0 in
            let tr3 := (tr2 ++ [OpInsert (Email user) (PasswordHash user)])%list in
            match Create db user with
            | (_, Some e) =>
                if is_sentinel e RepoErrUserAlreadyExists
                then (Err (Sentinel ErrUserExists), tr3)
                else (Err (Wrap "failed to create user" e), tr3)
            | (user', None) =>
                let tr4 := (tr3 ++ [OpSign (ID user')])%list in
                match services.generateToken s now (ID user') with
                | Err e => (Err (Wrap "failed to generate token" e), tr4)
                | Ok token => (Ok (mkAuthResponse token user'), tr4)
                end
            end
        end
    end in
  match GetByEmail db (register_email req) with
  | Err e =>
      if negb (is_sentinel e RepoErrUserNotFound)
      then (Err (Wrap "failed to check existing user" e), tr1)
      else rest None
  | Ok existingUser => rest (Some existingUser)
  end.

Definition Login (req : LoginRequest) : result error AuthResponse * list Op :=
  let tr1 := [OpSelect (login_email req)] in
  match GetByEmail db (login_email req) with
  | Err e =>
      if is_sentinel e RepoErrUserNotFound
      then (Err (Sentinel ErrInvalidCredentials), tr1)
      else (Err (Wrap "failed to get user" e), tr1)
  | Ok user =>
      let tr2 := (tr1 ++ [OpCompare (PasswordHash user) (login_password req)])%list in
      match CompareHashAndPassword bc (PasswordHash user) (login_password req) with
      | Some _ => (Err (Sentinel ErrInvalidCredentials), tr2)
      | None =>
          let tr3 := (tr2 ++ [OpSign (ID user)])%list in
          match services.generateToken s now (ID user) with
          | Err e => (Err (Wrap "failed to generate token" e), tr3)
          | Ok token => (Ok (mkAuthResponse token user), tr3)
          end
      end
  end.

End service.

End authservice.

(** ** internal/handlers: the authentication endpoints *)

Module authhandler.
Import errors http models authservice.
Import jwt (result, Ok, Err).

Definition StatusCreated : Z := 201.
Definition StatusBadRequest : Z := 400.
Definition StatusUnauthorized : Z := 401.
Definition StatusConflict : Z := 409.
Definition StatusInternalServerError : Z := 500.

(** What the handlers encode as the body. *)
Inductive Payload :=
| ErrorPayload (e : ErrorResponse)
| AuthPayload (a : AuthResponse).

Definition respondWithJSON (w : ResponseWriter Payload) (code : Z)
  (payload : Payload) : ResponseWriter Payload :=
  let w1 := SetHeader "Content-Type" "application/json" w in
  let w2 := WriteHeader code w1 in
  Write (JSONLine payload) w2.

Definition respondWithError (w : ResponseWriter Payload) (r : Request) (code : Z)
  (message : string) (err : error) : ResponseWriter Payload * list logger.Entry :=
  let entry := logger.log (logger.FromContext (RequestID r)) logger.ErrorLevel message
                 [("error", Error err); ("status_code", duration.itoa code)] in
  let response := mkErrorResponse message (Error err) in
  (respondWithJSON w code (ErrorPayload response), [entry]).




Section handlers.
Variable s : services.AuthService.
Variable db : repositories.Storage.
Variable bc : Bcrypt.
Variable now : Z.

(** [validate.Struct] on the two request types. *)
Variable validate_register : RegisterRequest → option error.
Variable validate_login : LoginRequest → option error.

(** [Register]; [body] is what decoding the request body gives. *)
Definition Register (body : result error RegisterRequest) (r : Request)
  (w : ResponseWriter Payload)
  : ResponseWriter Payload * list logger.Entry * list Op :=
  match body with
  | Err err => (respondWithError w r StatusBadRequest "invalid request body" err, [])
  | Ok req =>
      match validate_register req with
      | Some err => (respondWithError w r StatusBadRequest "validation failed" err, [])
      | None =>
          let '(response, ops) := authservice.Register s db bc now req in
          match response with
          | Err err =>
              if is_sentinel err ErrUserExists
              then (respondWithError w r StatusConflict "user already exists" err, ops)
              else (respondWithError w r StatusInternalServerError
                      "failed to register user" err, ops)
          | Ok response => (respondWithJSON w StatusCreated (AuthPayload response), [], ops)
          end
      end
  end.

Definition Login (body : result error LoginRequest) (r : Request)
  (w : ResponseWriter Payload)
  : ResponseWriter Payload * list logger.Entry * list Op :=
  match body with
  | Err err => (respondWithError w r StatusBadRequest "invalid request body" err, [])
  | Ok req =>
      match validate_login req with
      | Some err => (respondWithError w r StatusBadRequest "validation failed" err, [])
      | None =>
          let '(response, ops) := authservice.Login s db bc now req in
          match response with
          | Err err =>
              if is_sentinel err ErrInvalidCredentials
              then (respondWithError w r StatusUnauthorized "invalid credentials" err, ops)
              else (respondWithError w r StatusInternalServerError
                      "failed to login" err, ops)
          | Ok response => (respondWithJSON w StatusOK (AuthPayload response), [], ops)
          end
      end
  end.

End handlers.

End authhandler.

(** ** internal/middleware: bearer tokens *)

Module authmw.
Import http.
Import jwt (result, Ok, Err).

(** [strings.Split(s, sep)] for a separator of one byte: the pieces
    between the separators, one more than there are separators. *)
Fixpoint Split (s : string) (sep : ascii) : list string :=
  match s with
  | EmptyString => [EmptyString]
  | String c s' =>
      if bool_decide (c = sep) then EmptyString :: Split s' sep
      else match Split s' sep with
           | h :: t => String c h :: t
           | [] => [String c EmptyString]
           end
  end.

(** Whether the byte occurs in the string. *)
Fixpoint contains (s : string) (c : ascii) : bool :=
  match s with
  | EmptyString => false
  | String c' s' => bool_decide (c' = c) || contains s' c
  end.

(** [respondWithError] of the middleware package: the body is put
    together by hand. *)
Definition respondWithError {payload} (w : ResponseWriter payload) (code : Z)
  (message : string) : ResponseWriter payload :=
  let w1 := SetHeader "Content-Type" "application/json" w in
  let w2 := WriteHeader code w1 in
  Write (Bytes ("{" +:+ quoted "error" +:+ ":" +:+ quoted message +:+ "}")) w2.

Section middleware.
Context {payload : Type}.
Variable s : services.AuthService.

(** The clock reading of [ValidateToken]. *)
Variable now : Z.

(** How the token library reads the text of a token. *)
Variable read_token : string → jwt.TokenString.

(** The wrapped handler; it finds the user id in the request's context. *)
Variable next : Z → Request → ResponseWriter payload → ResponseWriter payload.

Definition AuthMiddleware (r : Request) (w : ResponseWriter payload)
  : ResponseWriter payload :=
  let authHeader := Get (ReqHeader r) "Authorization" in
  if bool_decide (authHeader = "") then
    respondWithError w authhandler.StatusUnauthorized "missing authorization header"
  else
    let parts := Split authHeader " " in
    if negb (length parts =? 2)%nat
       || negb (bool_decide (nth 0 parts "" = "Bearer")) then
      respondWithError w authhandler.StatusUnauthorized
        "invalid authorization header format"
    else
      let token := nth 1 parts "" in
      match services.ValidateToken s now (read_token token) with
      | Err _ =>
          respondWithError w authhandler.StatusUnauthorized "invalid or expired token"
      | Ok userID => next userID r w
      end.

End middleware.

End authmw.

(** ** internal/config: configuration from the environment *)

Module config.
Import errors.
Import jwt (result, Ok, Err).

Record ServerConfig := mkServerConfig { ServerPort : string }.

Record DatabaseConfig := mkDatabaseConfig {
  Host : string;
  Port : string;
  User : string;
  Password : string;
  Name : string;
  SSLMode : string;
}.

Record JWTConfig := mkJWTConfig { Secret : string }.

Record RateLimitConfig := mkRateLimitConfig { RPS : Z; Burst : Z }.

Record LoggerConfig := mkLoggerConfig { LogLevel : string }.

Record Config := mkConfig {
  Server : ServerConfig;
  Database : DatabaseConfig;
  JWT : JWTConfig;
  RateLimit : RateLimitConfig;
  Logger : LoggerConfig;
  Env : string;
}.

(** [Validate]: the first missing setting is reported. *)
Definition Validate (c : Config) : option error :=
  if bool_decide (Password (Database c) = "") then
    Some (Foreign "DB_PASSWORD is required")
  else if bool_decide (Secret (JWT c) = "") then
    Some (Foreign "JWT_SECRET is required")
  else if bool_decide (ServerPort (Server c) = "") then
    Some (Foreign "SERVER_PORT is required")
  else None.

Definition GetDSN (c : Config) : string :=
  "host=" +:+ Host (Database c) +:+ " port=" +:+ Port (Database c)
  +:+ " user=" +:+ User (Database c) +:+ " password=" +:+ Password (Database c)
  +:+ " dbname=" +:+ Name (Database c) +:+ " sslmode=" +:+ SSLMode (Database c).

Definition IsProduction (c : Config) : bool := bool_decide (Env c = "production").

Section environment.

(** The process environment once [godotenv.Load] has run. *)
Variable env : gmap string string.

(** [strconv.Atoi]; [None] stands for its error. *)
Variable Atoi : string → option Z.

(** [os.Getenv]: a variable that is not set reads as the empty string. *)
Definition Getenv (key : string) : string := default "" (env !! key).

Definition getEnv (key defaultValue : string) : string :=
  let value := Getenv key in
  if bool_decide (value ≠ "") then value else defaultValue.

Definition getEnvAsInt (key : string) (defaultValue : Z) : Z :=
  let value := Getenv key in
  if bool_decide (value ≠ "") then
    match Atoi value with
    | Some intVal => intVal
    | None => defaultValue
    end
  else defaultValue.

Definition Load : result error Config :=
  let cfg :=
    mkConfig
      (mkServerConfig (getEnv "SERVER_PORT" "8080"))
      (mkDatabaseConfig
         (getEnv "DB_HOST" "localhost")
         (getEnv "DB_PORT" "5432")
         (getEnv "DB_USER" "app")
         (getEnv "DB_PASSWORD" "")
         (getEnv "DB_NAME" "appdb")
         (getEnv "DB_SSLMODE" "disable"))
      (mkJWTConfig (getEnv "JWT_SECRET" ""))
      (mkRateLimitConfig
         (getEnvAsInt "RATE_LIMIT_RPS" 10)
         (getEnvAsInt "RATE_LIMIT_BURST" 20))
      (mkLoggerConfig (getEnv "LOG_LEVEL" "info"))
      (getEnv "ENV" "development") in
  match Validate cfg with
  | Some err => Err err
  | None => Ok cfg
  end.

End environment.

End config.

(** ** pkg/database: transactions *)

Module transaction.
Import errors.

(** The calls made on the database and the transaction, in order. *)
Inductive TxOp := OpBegin | OpFn | OpRollback | OpCommit.

(** What the callback does: it returns, or it panics with a value. *)
Inductive FnResult :=
| Returns (err : option error)
| Panics (p : string).

Inductive Outcome :=
| Returned (err : option error)
| Panicked (p : string).

(** [WithTransaction], given what [BeginTx], the callback, [Rollback]
    and [Commit] do when they are called. *)
Definition WithTransaction (begin : option error) (fn : FnResult)
  (rollback commit : option error) : Outcome * list TxOp * list logger.Entry :=
  match begin with
  | Some err =>
      (Returned (Some (Wrap "failed to begin transaction" err)), [OpBegin], [])
  | None =>
      match fn with
      | Panics p => (Panicked p, [OpBegin; OpFn; OpRollback], [])
      | Returns (Some err) =>
          (Returned (Some err), [OpBegin; OpFn; OpRollback],
           match rollback with
           | Some rbErr =>
               [logger.log [] logger.ErrorLevel "failed to rollback transaction"
                  [("error", Error rbErr); ("original_error", Error err)]]
           | None => []
           end)
      | Returns None =>
          match commit with
          | Some err =>
              (Returned (Some (Wrap "failed to commit transaction" err)),
               [OpBegin; OpFn; OpCommit], [])
          | None => (Returned None, [OpBegin; OpFn; OpCommit], [])
          end
      end
  end.

End transaction.

(** ** internal/middleware: request logging *)

Module logmw.
Import http clientip.

(** What a handler does with the writer it is given, in order. *)
Inductive WriterOp (payload : Type) :=
| OpSetHeader (key value : string)
| OpWriteHeader (code : Z)
| OpWrite (c : chunk payload).
Arguments OpSetHeader {payload} key value.
Arguments OpWriteHeader {payload} code.
Arguments OpWrite {payload} c.

(** [responseWriter]: the wrapped writer, the status code noted and the
    bytes counted. *)
Record responseWriter (payload : Type) := mkResponseWriter {
  ResponseWriter_ : ResponseWriter payload;
  statusCode : Z;
  written : Z;
}.
Arguments mkResponseWriter {payload}.
Arguments ResponseWriter_ {payload}.
Arguments statusCode {payload}.
Arguments written {payload}.

Section middleware.
Context {payload : Type}.

(** The number of bytes a chunk takes on the wire. *)
Variable size : chunk payload → Z.

Definition rw_WriteHeader (code : Z) (rw : responseWriter payload)
  : responseWriter payload :=
  mkResponseWriter (WriteHeader code (ResponseWriter_ rw)) code (written rw).

Definition rw_Write (c : chunk payload) (rw : responseWriter payload)
  : responseWriter payload :=
  mkResponseWriter (Write c (ResponseWriter_ rw)) (statusCode rw)
    (written rw + size c).

(** One call on the wrapper; [Header] is the wrapped writer's. *)
Definition perform (rw : responseWriter payload) (op : WriterOp payload)
  : responseWriter payload :=
  match op with
  | OpSetHeader key value =>
      mkResponseWriter (SetHeader key value (ResponseWriter_ rw))
        (statusCode rw) (written rw)
  | OpWriteHeader code => rw_WriteHeader code rw
  | OpWrite c => rw_Write c rw
  end.

Definition serve (ops : list (WriterOp payload)) (rw : responseWriter payload)
  : responseWriter payload :=
  foldl perform rw ops.

(** [LoggerMiddleware]: [requestID] is the fresh UUID, [query] the raw
    query of the URL, [start] and [finish] the two clock readings. *)
Definition LoggerMiddleware (requestID query : string) (start finish : Z)
  (next : Request → list (WriterOp payload)) (r : Request)
  (w : ResponseWriter payload) : ResponseWriter payload * logger.Entry :=
  let r := mkRequest (Method r) (Path r) (ReqHeader r) (RemoteAddr r)
             (Some requestID) in
  let w := SetHeader "X-Request-ID" requestID w in
  let rw := mkResponseWriter w StatusOK 0 in
  let rw := serve (next r) rw in
  let duration := finish - start in
  let clientIP := getClientIP r in
  (ResponseWriter_ rw,
   logger.log (logger.FromContext (RequestID r)) logger.InfoLevel "http request"
     [("method", Method r); ("path", Path r); ("query", query);
      ("status", duration.itoa (statusCode rw));
      ("duration", duration.String_ duration);
      ("client_ip", clientIP);
      ("user_agent", Get (ReqHeader r) "User-Agent");
      ("bytes_written", duration.itoa (written rw))]).

End middleware.

(** The codes a handler passes to [WriteHeader], in order. *)
Definition codes {payload} (ops : list (WriterOp payload)) : list Z :=
  omap (λ op, match op with OpWriteHeader code => Some code | _ => None end) ops.

(** The status a handler's calls put on the wire: that of the first
    [WriteHeader], or 200 when a [Write] comes before any. *)
Fixpoint wire_status {payload} (ops : list (WriterOp payload)) : option Z :=
  match ops with
  | [] => None
  | OpSetHeader _ _ :: ops' => wire_status ops'
  | OpWriteHeader code :: _ => Some code
  | OpWrite _ :: _ => Some StatusOK
  end.

End logmw.

(** * Theorems *)

Module clientip_facts.
Import http clientip.

Example canonical_xff : CanonicalMIMEHeaderKey "X-Forwarded-For" = "X-Forwarded-For".
Proof. reflexivity. Qed.

Example canonical_xri : CanonicalMIMEHeaderKey "X-Real-IP" = "X-Real-Ip".
Proof. reflexivity. Qed.

Example canonical_lower : CanonicalMIMEHeaderKey "x-forwarded-for" = "X-Forwarded-For".
Proof. reflexivity. Qed.

(** A forwarded chain of several hops is returned whole. *)
Example getClientIP_chain :
  getClientIP (mkRequest "GET" "/healthz"
                 {[ "X-Forwarded-For" := ["203.0.113.7, 10.0.0.2"; "10.0.0.3"];
                    "X-Real-Ip" := ["198.51.100.1"] ]}
                 "192.0.2.4:5113" None)
  = "203.0.113.7, 10.0.0.2".
Proof. vm_compute. reflexivity. Qed.

(** C5: the rate-limit identity is the first X-Forwarded-For value,
    verbatim, when it is non-empty; otherwise the X-Real-IP value when
    that is non-empty; otherwise the connection's remote address. *)
Theorem getClientIP_precedence (r : Request) :
  let xff := Get (ReqHeader r) "X-Forwarded-For" in
  let xri := Get (ReqHeader r) "X-Real-IP" in
  (xff ≠ "" → getClientIP r = xff) ∧
  (xff = "" → xri ≠ "" → getClientIP r = xri) ∧
  (xff = "" → xri = "" → getClientIP r = RemoteAddr r).
Proof.
  cbv zeta. unfold getClientIP.
  repeat split; intros; repeat case_bool_decide; congruence.
Qed.

End clientip_facts.

Module limiter_facts.
Import rate middleware burst_inv.

Lemma tokensFromDuration_max lim d :
  tokensFromDuration lim d = d * Z.max 0 (limit lim).
Proof.
  unfold tokensFromDuration. destruct (Z.leb_spec (limit lim) 0).
  - rewrite Z.max_l by lia. lia.
  - rewrite Z.max_r by lia. lia.
Qed.

Lemma Allow_after_calls r b t1 tprev k lim t :
  0 ≤ k → after_calls r b t1 tprev k lim →
  t1 ≤ t → tprev ≤ t → (t - t1) * r < token →
  ∃ lim', Allow t lim = (bool_decide (k < b), lim') ∧
          after_calls r b t1 t (k + 1) lim'.
Proof.
  intros Hk Hinv Ht1t Htp Hwin.
  assert (Hr : (t - t1) * Z.max 0 r < token).
  { destruct (Z.max_spec 0 r) as [[_ ->] | [_ ->]]; [done | unfold token, Second; lia]. }
  assert (Hnn : 0 ≤ (t - t1) * Z.max 0 r) by (apply Z.mul_nonneg_nonneg; lia).
  destruct Hinv as [[Ha ->] | (Ha & (Hl & Hb & Ht1 & Htk) & Hlast)].
  - unfold Allow, advance; rewrite tokensFromDuration_max; simpl.
    assert (0 ≤ (t - Z.min t 0) * Z.max 0 r) by (apply Z.mul_nonneg_nonneg; lia).
    rewrite Z.min_l by lia.
    unfold token, Second in *.
    case_bool_decide; destruct (Z.leb_spec 1000000000 (b * 1000000000)); try lia.
    + eexists; split; [reflexivity|]. right. unfold charged; simpl.
      unfold token, Second. repeat split; lia.
    + eexists; split; [reflexivity|]. left. split; [lia | done].
  - unfold Allow, advance; rewrite tokensFromDuration_max, Hl, Hb.
    rewrite (Z.min_r t) by lia.
    assert (0 ≤ (t - last lim) * Z.max 0 r) by (apply Z.mul_nonneg_nonneg; lia).
    unfold token, Second in *.
    set (tk := Z.min _ _).
    assert (Htk' : (b - Z.min k (Z.max 0 b)) * 1000000000 ≤ tk
                   ≤ (b - Z.min k (Z.max 0 b)) * 1000000000 + (t - t1) * Z.max 0 r)
      by (subst tk; lia).
    case_bool_decide; destruct (Z.leb_spec 1000000000 tk); try lia.
    + eexists; split; [reflexivity|]. right. unfold charged; simpl.
      unfold token, Second. repeat split; lia.
    + eexists; split; [reflexivity|]. right. unfold charged.
      unfold token, Second. repeat split; lia.
Qed.


Lemma call_bucket {A} ip p (f : Limiter → A * Limiter) dflt st lim :
  lookup ip st = Some p → heap st !! p = Some lim →
  ∃ st', call p f dflt st = (fst (f lim), st') ∧
         bucket ip st' = Some (snd (f lim)) ∧ rl st' = rl st.
Proof.
  intros Hp Hlim. unfold call. rewrite Hlim. destruct (f lim) as [a lim'].
  eexists; split; [reflexivity|]. split; [|done].
  unfold bucket, lookup in *; simpl. rewrite Hp; simpl.
  apply list_lookup_insert_eq. by eapply lookup_lt_Some.
Qed.

Lemma getLimiter_view ip st lim :
  view ip st lim →
  ∃ p st1, getLimiter ip st = (p, st1) ∧ lookup ip st1 = Some p ∧
           heap st1 !! p = Some lim ∧
           rps (rl st1) = rps (rl st) ∧ middleware.burst (rl st1) = middleware.burst (rl st).
Proof.
  unfold view, getLimiter, bucket. intros [[Hnone ->] | Hsome].
  - rewrite Hnone. unfold install, lookup; simpl.
    eexists _, _; split; [reflexivity|]. simpl.
    rewrite lookup_insert_eq. split; [done|]. split; [|done].
    rewrite lookup_app_r by lia. by rewrite Nat.sub_diag.
  - destruct (lookup ip st) as [p|] eqn:Hp; [|done]. simpl in Hsome.
    by eexists _, _.
Qed.

Lemma allow_view ip t st lim :
  view ip st lim →
  ∃ st', allow ip t st = (fst (Allow t lim), st') ∧
         view ip st' (snd (Allow t lim)) ∧
         rps (rl st') = rps (rl st) ∧ middleware.burst (rl st') = middleware.burst (rl st).
Proof.
  intros Hv. destruct (getLimiter_view _ _ _ Hv) as (p & st1 & Hg & Hp & Hlim & Hr & Hb).
  unfold allow. rewrite Hg.
  destruct (call_bucket ip p (Allow t) false st1 lim Hp Hlim) as (st' & Hc & Hbk & Hrl).
  exists st'. rewrite Hrl. repeat split; try done. by right.
Qed.

(** Within one refill period the [k]-th call of a run (counting from
    zero) is admitted exactly when [k] is below the capacity. *)
Lemma allow_seq_after_calls ip r b t1 ts : ∀ tprev k st lim,
  0 ≤ k → view ip st lim → rps (rl st) = r → middleware.burst (rl st) = b →
  after_calls r b t1 tprev k lim →
  Sorted Z.le (tprev :: ts) → Forall (λ t, t1 ≤ t ∧ (t - t1) * r < token) ts →
  fst (allow_seq ip ts st)
  = (λ i, bool_decide (k + i < b)) <$> seqZ 0 (Z.of_nat (length ts)).
Proof.
  induction ts as [|t ts IH]; intros tprev k st lim Hk Hv Hr Hb Hinv Hs Hw; [done|].
  apply Sorted_inv in Hs as [Hs Hhd]. apply HdRel_inv in Hhd.
  apply Forall_cons in Hw as [[Ht1 Hwin] Hw].
  destruct (Allow_after_calls _ _ _ _ _ _ t Hk Hinv Ht1 Hhd Hwin) as (lim' & HA & Hinv').
  destruct (allow_view ip t st lim Hv) as (st' & Ha & Hv' & Hr' & Hb').
  rewrite HA in Ha, Hv'. simpl in Ha, Hv'.
  cbn [allow_seq]. rewrite Ha.
  destruct (allow_seq ip ts st') as [bs st2] eqn:Hrun. cbn [fst].
  assert (Hbs : bs = fst (allow_seq ip ts st')) by (by rewrite Hrun).
  rewrite (IH t (k + 1) st' lim') in Hbs; try done; try lia; try congruence.
  rewrite Hbs. cbn [length]. rewrite Nat2Z.inj_succ, (seqZ_cons 0 (Z.succ _)) by lia.
  rewrite fmap_cons, Z.add_0_r. f_equal.
  replace (Z.succ 0) with (1 + 0) by lia.
  rewrite Z.pred_succ, <- (fmap_add_seqZ 1 0), <- list_fmap_compose.
  apply list_fmap_ext; intros i x _; simpl.
  apply bool_decide_ext. lia.
Qed.


Lemma allow_seq_lookup ip r b t1 ts st i :
  lookup ip st = None → rps (rl st) = r → middleware.burst (rl st) = b →
  Sorted Z.le (t1 :: ts) → Forall (λ t, (t - t1) * r < token) ts →
  (i < length (t1 :: ts))%nat →
  fst (allow_seq ip (t1 :: ts) st) !! i = Some (bool_decide (Z.of_nat i < b)).
Proof.
  intros Hfresh Hr Hb Hs Hw Hi.
  assert (Hv : view ip st (NewLimiter r b)) by (left; by rewrite Hr, Hb).
  assert (Hinv : after_calls r b t1 t1 0 (NewLimiter r b)) by (left; split; [lia | done]).
  assert (Hs' : Sorted Z.le (t1 :: t1 :: ts)) by (constructor; [done | constructor; lia]).
  assert (Hw' : Forall (λ t, t1 ≤ t ∧ (t - t1) * r < token) (t1 :: ts)).
  { apply Sorted_StronglySorted in Hs; [|intros x y z; lia].
    apply StronglySorted_inv in Hs as [_ Hall].
    constructor; [unfold token, Second; lia|].
    rewrite Forall_forall in Hall, Hw |- *. intros x Hx. split; auto. }
  rewrite (allow_seq_after_calls ip r b t1 (t1 :: ts) t1 0 st (NewLimiter r b)
             ltac:(lia) Hv Hr Hb Hinv Hs' Hw').
  rewrite list_lookup_fmap, lookup_seqZ_lt by lia. reflexivity.
Qed.

(** C1, amended: on a bucket created by the first call, [N] calls with
    [N] at most the burst capacity, made at non-decreasing instants
    within one refill period, are all admitted; the next call within
    that period is denied when [N] is the capacity, and admitted when
    [N] is below it. *)
Theorem allow_burst_then_deny r b ip st t1 ts (N : nat) :
  lookup ip st = None → rps (rl st) = r → middleware.burst (rl st) = b →
  Sorted Z.le (t1 :: ts) → Forall (λ t, (t - t1) * r < token) ts →
  length (t1 :: ts) = S N → Z.of_nat N ≤ b →
  let res := fst (allow_seq ip (t1 :: ts) st) in
  take N res = replicate N true ∧
  (Z.of_nat N = b → res !! N = Some false) ∧
  (Z.of_nat N < b → res !! N = Some true).
Proof.
  intros Hfresh Hr Hb Hs Hw Hlen HN res.
  assert (Hres : ∀ i, (i < S N)%nat → res !! i = Some (bool_decide (Z.of_nat i < b))).
  { intros i Hi. apply (allow_seq_lookup ip r b); try done. lia. }
  split; [|split].
  - apply list_eq. intros i. destruct (decide (i < N)%nat) as [Hi|Hi].
    + rewrite lookup_take_lt, lookup_replicate_2, Hres by lia.
      f_equal. apply bool_decide_eq_true. lia.
    + rewrite lookup_take_ge by lia. symmetry. apply lookup_replicate_None. lia.
  - intros HNb. rewrite Hres by lia. f_equal. apply bool_decide_eq_false. lia.
  - intros HNb. rewrite Hres by lia. f_equal. apply bool_decide_eq_true. lia.
Qed.

Lemma allow_burst_then_deny_witness :
  let res := fst (allow_seq "203.0.113.7" [0; 40000000; 90000000]
                    (NewRateLimiter 10 2)) in
  take 2 res = replicate 2 true ∧
  (Z.of_nat 2 = 2 → res !! 2%nat = Some false) ∧
  (Z.of_nat 2 < 2 → res !! 2%nat = Some true).
Proof.
  apply (allow_burst_then_deny 10 2 "203.0.113.7" (NewRateLimiter 10 2) 0
           [40000000; 90000000] 2).
  - reflexivity.
  - reflexivity.
  - reflexivity.
  - repeat constructor; lia.
  - repeat constructor; unfold token, Second; lia.
  - reflexivity.
  - lia.
Defined.

(** C1 as worded fails below the capacity: with capacity 2 and one call
    made, the second call is admitted, not denied. *)
Lemma allow_below_burst_next_admitted :
  let res := fst (allow_seq "203.0.113.7" [0; 0] (NewRateLimiter 10 2)) in
  (Z.of_nat 1 ≤ 2) ∧ Sorted Z.le [0; 0] ∧ Forall (λ t, (t - 0) * 10 < token) [0] ∧
  ¬ admits_then_denies 1 res.
Proof.
  cbv zeta. repeat split.
  - lia.
  - repeat constructor; lia.
  - repeat constructor.
  - intros [_ H]. vm_compute in H. discriminate.
Qed.

End limiter_facts.

Module retry_facts.
Import http clientip rate middleware burst_inv limiter_facts.

Lemma digit_not_minus x : duration.digit x ≠ "-"%char.
Proof.
  unfold duration.digit. generalize (Z.to_nat x) as n. intros n.
  do 11 (destruct n as [|n]; [discriminate|]). discriminate.
Qed.

Lemma fmtInt_go_head fuel u acc :
  fuel ≠ O → ∃ x s, duration.fmtInt_go fuel u acc = String (duration.digit x) s.
Proof.
  revert u acc. induction fuel as [|fuel IH]; intros u acc Hf; [done|].
  simpl. destruct (u / 10 =? 0); [by eexists _, _|].
  destruct fuel as [|fuel]; [by eexists _, _|]. by apply IH.
Qed.

Lemma fmtInt_head u acc : ∃ x s, duration.fmtInt u acc = String (duration.digit x) s.
Proof. by apply fmtInt_go_head. Qed.

Lemma format_head u : ∃ x s, duration.format u = String (duration.digit x) s.
Proof.
  unfold duration.format.
  repeat match goal with
  | |- context [if ?c then _ else _] => destruct c
  | |- context [let '(_, _) := ?p in _] => destruct p
  end; try apply fmtInt_head.
  by exists 0, "s".
Qed.

(** The text of a non-negative duration carries no minus sign. *)
Lemma String_nonneg_no_minus d s : 0 ≤ d → duration.String_ d ≠ String "-"%char s.
Proof.
  intros Hd. unfold duration.String_.
  destruct (Z.ltb_spec d 0); [lia|].
  destruct (format_head d) as (x & s' & ->).
  intros [=]. by eapply digit_not_minus.
Qed.

Lemma DelayFrom_bounds res t : 0 ≤ DelayFrom res t ≤ InfDuration.
Proof. unfold DelayFrom, InfDuration. destruct (ok res); lia. Qed.

(** A reservation on a refilling bucket of capacity at least one is due
    at the first instant at which the bucket holds a whole token. *)
Lemma Reserve_due lim t :
  0 < limit lim → 1 ≤ rate.burst lim → last lim ≤ t →
  let res := fst (Reserve t lim) in
  ok res = true ∧ t ≤ timeToAct res ∧
  token_ready (timeToAct res) lim ∧
  ∀ t', t ≤ t' < timeToAct res → ¬ token_ready t' lim.
Proof.
  intros Hl Hb Hlast. unfold Reserve.
  destruct (Z.eqb_spec (limit lim) 0); [lia|].
  destruct (Z.leb_spec 1 (rate.burst lim)); [|lia]. cbn [fst ok timeToAct].
  assert (Hadv : ∀ t', t ≤ t' →
            advance t' lim
            = Z.min (rate.burst lim * token) (tokens lim + (t' - last lim) * limit lim)).
  { intros t' Ht'. unfold advance, tokensFromDuration.
    destruct (Z.leb_spec (limit lim) 0); [lia|]. by rewrite (Z.min_r t') by lia. }
  unfold token_ready. rewrite (Hadv t) by lia.
  set (A := tokens lim + (t - last lim) * limit lim).
  unfold durationFromTokens. destruct (Z.leb_spec (limit lim) 0); [lia|].
  assert (HB : token ≤ rate.burst lim * token) by (unfold token, Second; lia).
  destruct (Z.ltb_spec (Z.min (rate.burst lim * token) A - token) 0) as [Hneg|Hpos].
  - assert (HA : Z.min (rate.burst lim * token) A = A) by lia. rewrite HA.
    set (wait := (- (A - token) + limit lim - 1) / limit lim).
    assert (Hw1 : token - A ≤ wait * limit lim).
    { pose proof (Z.mul_succ_div_gt (- (A - token) + limit lim - 1) (limit lim) Hl).
      fold wait in H1. lia. }
    assert (Hw2 : (wait - 1) * limit lim < token - A).
    { pose proof (Z.mul_div_le (- (A - token) + limit lim - 1) (limit lim) Hl).
      fold wait in H1. lia. }
    assert (0 < wait) by nia.
    repeat split; [lia| |].
    + rewrite Hadv by lia. subst A. lia.
    + intros t' [Ht1 Ht2]. rewrite Hadv by lia.
      assert ((t' - t) * limit lim ≤ (wait - 1) * limit lim)
        by (apply Z.mul_le_mono_nonneg_r; lia).
      subst A. lia.
  - repeat split; [lia| |].
    + rewrite Z.add_0_r, Hadv by lia. fold A. lia.
    + intros t' Ht'. lia.
Qed.

(** What the middleware does with a denied request, in terms of the
    bucket [lim] the client address stands for. *)
Lemma RateLimitMiddleware_denied {payload} next ck r st (w : ResponseWriter payload) lim :
  view (getClientIP r) st lim →
  fst (Allow (t_allow ck) lim) = false →
  ∃ st' entry,
    RateLimitMiddleware next ck r st w
    = (Write (Bytes too_many_requests)
         (WriteHeader StatusTooManyRequests
            (SetHeader "Content-Type" "application/json"
               (SetHeader "Retry-After" (retry_after ck lim) w))),
       st', [entry]).
Proof.
  intros Hv Hdeny.
  destruct (getLimiter_view _ _ _ Hv) as (p & st1 & Hg & Hp & Hlim & _ & _).
  unfold RateLimitMiddleware. rewrite Hg.
  assert (HA : Allow (t_allow ck) lim = (false, lim)).
  { revert Hdeny. unfold Allow. by destruct (_ <=? _). }
  assert (Hc : call p (Allow (t_allow ck)) false st1 = (false, st1)).
  { unfold call. rewrite Hlim, HA. destruct st1 as [r1 h1]; simpl in *.
    by rewrite list_insert_id. }
  rewrite Hc. cbn [negb].
  unfold retry_after, call at 1. rewrite Hlim.
  destruct (Reserve (t_reserve ck) lim) as [res lim1]. cbn [fst].
  unfold call. cbn [heap]. 
  rewrite list_lookup_insert_eq by (by eapply lookup_lt_Some).
  destruct (OK res); cbn [negb]; by eexists _, _.
Qed.


Lemma Get_Set_eq h key v : Get (Set_ h key v) key = v.
Proof. unfold Get, Set_. by rewrite lookup_insert_eq. Qed.

Lemma Get_Set_ne h key key' v :
  CanonicalMIMEHeaderKey key ≠ CanonicalMIMEHeaderKey key' →
  Get (Set_ h key v) key' = Get h key'.
Proof. intros Hne. unfold Get, Set_. by rewrite lookup_insert_ne. Qed.

(** C6: when admission denies a request whose response has not started,
    the response is 429 with the fixed JSON body and a Retry-After
    header.  Its value is the text 60 or the text of a duration that is
    not negative, so it never starts with a minus sign; on a refilling
    bucket of capacity at least one it is the time from the clock
    reading of [Delay] to the first instant at which the bucket holds a
    token again. *)
Theorem rate_limit_denied_response {payload} next ck r st
    (w : ResponseWriter payload) lim :
  view (getClientIP r) st lim →
  fst (allow (getClientIP r) (t_allow ck) st) = false →
  rw_status w = None →
  let w' := fst (fst (RateLimitMiddleware next ck r st w)) in
  let v := Get (rw_sent w') "Retry-After" in
  rw_status w' = Some 429 ∧
  rw_body w' = (rw_body w ++ [Bytes too_many_requests])%list ∧
  Get (rw_sent w') "Content-Type" = "application/json" ∧
  (v = "60" ∨ ∃ d, 0 ≤ d ∧ v = duration.String_ d) ∧
  (∀ s, v ≠ String "-"%char s) ∧
  (0 < limit lim → 1 ≤ rate.burst lim → last lim ≤ t_reserve ck →
   ∃ due, t_reserve ck ≤ due ∧ token_ready due lim ∧
          (∀ t', t_reserve ck ≤ t' < due → ¬ token_ready t' lim) ∧
          v = duration.String_ (Z.min InfDuration (Z.max 0 (due - t_delay ck)))).
Proof.
  intros Hv Hdeny Hw.
  destruct (allow_view _ (t_allow ck) _ _ Hv) as (st1 & Ha & _).
  rewrite Ha in Hdeny. cbn [fst] in Hdeny.
  destruct (RateLimitMiddleware_denied next ck r st w lim Hv Hdeny)
    as (st' & entry & ->).
  cbn [fst]. unfold Write, WriteHeader, SetHeader. cbn [rw_status rw_header].
  rewrite Hw. cbn [rw_status rw_header rw_sent rw_body].
  rewrite (Get_Set_ne _ "Content-Type" "Retry-After")
    by (eapply (bool_decide_unpack _); vm_compute; exact I).
  rewrite Get_Set_eq.
  rewrite Get_Set_eq.
  split; [done|]. split; [done|]. split; [done|].
  unfold retry_after.
  split; [|split].
  - destruct (OK _); [right|by left].
    eexists; split; [|reflexivity]. apply DelayFrom_bounds.
  - intros s. destruct (OK _); [|done].
    apply String_nonneg_no_minus, DelayFrom_bounds.
  - intros Hl Hb Hlast.
    destruct (Reserve_due lim (t_reserve ck) Hl Hb Hlast) as (Hok & Hle & Hready & Hfirst).
    exists (timeToAct (fst (Reserve (t_reserve ck) lim))).
    repeat split; try done.
    unfold OK, DelayFrom. by rewrite Hok.
Qed.

Lemma rate_limit_denied_response_witness :
  let ck := mkClock 30000000 30000100 30000200 30000300 in
  let r := mkRequest "GET" "/healthz" ∅ "192.0.2.4:5113" None in
  let st := mkState (mkRateLimiter {[ "192.0.2.4:5113" := 0%nat ]} 10 2)
              [mkLimiter 10 2 0 0 0] in
  let w' := fst (fst (RateLimitMiddleware (payload := unit) (λ _ w, w) ck r st
                        (fresh ∅))) in
  rw_status w' = Some 429 ∧
  Get (rw_sent w') "Retry-After" = "69.9998ms".
Proof.
  intros ck r st w'.
  pose proof (rate_limit_denied_response (payload := unit) (λ _ w, w) ck r st
                (fresh ∅) (mkLimiter 10 2 0 0 0)
                ltac:(right; reflexivity) ltac:(reflexivity) ltac:(reflexivity))
    as (Hs & _).
  split; [exact Hs | reflexivity].
Defined.

End retry_facts.

Module concurrent_facts.
Import rate middleware concurrent.




























Lemma returned_le_callers ip l :
  (countb (returned ip true) l + countb (returned ip false) l
   ≤ countb (λ g, bool_decide (g_ip g = ip)) l)%nat.
Proof.
  induction l as [|g l IH]; simpl; [lia|].
  unfold returned at 1 3. destruct (bool_decide (g_ip g = ip)); simpl; [|lia].
  destruct (g_pc g) as [| | | | |[]]; simpl; lia.
Qed.




(** A goroutine running alone through its statements computes [allow]. *)
Lemma solo_allow now ip st :
  ∃ sched,
    run now sched (mkSystem st None [mkG ip AtLock])
    = Some (mkSystem (snd (allow ip now st)) None
              [mkG ip (Done (fst (allow ip now st)))]).
Proof.
  unfold allow, getLimiter.
  destruct (lookup ip st) as [p|] eqn:Hl.
  - exists [0; 0; 0; 0]%nat. unfold lookup in Hl. cbn. rewrite Hl. cbn.
    by destruct (call p (Allow now) false st).
  - exists [0; 0; 0; 0; 0]%nat. unfold lookup in Hl. cbn. rewrite Hl. cbn.
    by destruct (call _ (Allow now) false _).
Qed.

Lemma callers_replicate r b ip (M : nat) :
  callers ip (init r b (replicate M ip)) = M.
Proof.
  unfold callers, init; cbn [threads]. induction M as [|M IH]; [done|].
  change (replicate (S M) ip) with (ip :: replicate M ip).
  rewrite fmap_cons. cbn [countb g_ip].
  rewrite bool_decide_eq_true_2 by done. by rewrite IH.
Qed.



End concurrent_facts.

Module health_facts.
Import http errors health.

(** C10: for every request, database state and response writer the
    readiness handler produces exactly what the health handler produces;
    on a response that has not started that is 200 with status ok when
    the ping succeeds and 503 with status unhealthy when it fails, as
    JSON in both cases. *)
Theorem Ready_same_as_Healthz {payload} (encode : HealthResponse → payload)
    (ping : option error) (r : Request) (w : ResponseWriter payload) :
  Ready encode ping r w = Healthz encode ping r w ∧
  (rw_status w = None →
   let w' := fst (Ready encode ping r w) in
   Get (rw_sent w') "Content-Type" = "application/json" ∧
   (ping = None →
      rw_status w' = Some 200 ∧
      rw_body w' = (rw_body w ++ [JSONLine (encode (mkHealth "ok" "ok"))])%list) ∧
   (∀ e, ping = Some e →
      rw_status w' = Some 503 ∧
      rw_body w'
      = (rw_body w ++ [JSONLine (encode (mkHealth "unhealthy" "unhealthy"))])%list)).
Proof.
  split; [reflexivity|]. intros Hw. unfold Ready, Healthz.
  destruct ping as [e|]; cbn [database.Health fst];
    unfold Write, WriteHeader, SetHeader; cbn [rw_status rw_header];
    rewrite Hw; cbn [rw_status rw_header rw_sent rw_body];
    (split; [apply retry_facts.Get_Set_eq|]); split; try done.
Qed.

End health_facts.

Module startup_facts.
Import errors database backoff timer.

Section loop.
Variable ping : nat → Z → Z * option error.
Variable timer_wins : nat → bool.
Variable deadline : Z.

Lemma loop_cases n i t err mr :
  loop_case ping timer_wins deadline n i t mr
    (retry_loop ping timer_wins deadline (S n) i t err mr).
Proof.
  cbn [retry_loop]. destruct (ping i t) as [t1 [e|]] eqn:Hp; cbv zeta.
  - destruct (Z.leb_spec deadline t1).
    { eapply case_expired; [done | left; by split]. }
    destruct (Z.ltb_spec (t1 + rate.Second * (Z.of_nat i + 1)) deadline); cbn [orb].
    { eapply case_retry; [done | lia | lia]. }
    destruct (Z.eqb_spec (t1 + rate.Second * (Z.of_nat i + 1)) deadline); cbn [andb].
    + destruct (timer_wins i).
      * eapply case_retry; [done | lia | lia].
      * eapply case_expired; [done | right; split; lia].
    + eapply case_expired; [done | right; split; lia].
  - by apply case_success.
Qed.


Ltac loop_step n i t err mr :=
  destruct (loop_cases n i t err mr)
    as [t1 Hping | t1 e w fin Hping Hfin | t1 e w Hping Hlt Hfire].

Lemma loop_length n : ∀ i t err mr,
  (length (probes (retry_loop ping timer_wins deadline n i t err mr)) ≤ n)%nat.
Proof.
  induction n as [|n IH]; intros i t err mr; [done|].
  loop_step n i t err mr; cbn [probes add_probe length]; try lia.
  specialize (IH (S i) (t1 + rate.Second * (Z.of_nat i + 1)) (Some e) mr). lia.
Qed.

(** Every recorded probe is a call of the storage side, numbered in
    order. *)
Lemma loop_probe n : ∀ i t err mr k p,
  probes (retry_loop ping timer_wins deadline n i t err mr) !! k = Some p →
  ping (i + k) (started p) = (returned p, result p).
Proof.
  induction n as [|n IH]; intros i t err mr k p; [done|].
  loop_step n i t err mr; cbn [probes add_probe].
  - destruct k; [|done]. intros [= <-]. by rewrite Nat.add_0_r.
  - destruct k; [|done]. intros [= <-]. by rewrite Nat.add_0_r.
  - destruct k as [|k]; [intros [= <-]; by rewrite Nat.add_0_r|].
    intros Hk. apply IH in Hk. by rewrite Nat.add_succ_r.
Qed.

Lemma loop_first n : ∀ i t err mr p,
  probes (retry_loop ping timer_wins deadline n i t err mr) !! 0%nat = Some p →
  started p = t.
Proof.
  destruct n as [|n]; intros i t err mr p; [done|].
  loop_step n i t err mr; cbn [probes add_probe]; by intros [= <-].
Qed.

(** Between two probes lies the failure of the first and a backoff of
    as many seconds as probes were made, which ends by the deadline. *)
Lemma loop_backoff n : ∀ i t err mr k p p',
  probes (retry_loop ping timer_wins deadline n i t err mr) !! k = Some p →
  probes (retry_loop ping timer_wins deadline n i t err mr) !! S k = Some p' →
  result p ≠ None ∧ returned p < deadline ∧
  started p' = returned p + rate.Second * (Z.of_nat (i + k) + 1) ∧
  started p' ≤ deadline.
Proof.
  induction n as [|n IH]; intros i t err mr k p p'; [done|].
  loop_step n i t err mr; cbn [probes add_probe]; try done.
  destruct k as [|k].
  - intros [= <-] Hp'. simpl in Hp'. apply loop_first in Hp'.
    cbn [result returned]. rewrite Nat.add_0_r. repeat split; try done; lia.
  - intros Hk Hk'. simpl in Hk, Hk'.
    destruct (IH _ _ _ _ _ _ _ Hk Hk') as (? & ? & ? & ?).
    rewrite Nat.add_succ_r. by repeat split.
Qed.

(** A probe that succeeds is the last one, and the loop returns [nil]
    the moment it returns. *)
Lemma loop_success n : ∀ i t err mr k p,
  probes (retry_loop ping timer_wins deadline n i t err mr) !! k = Some p →
  result p = None →
  outcome (retry_loop ping timer_wins deadline n i t err mr) = None ∧
  finished_at (retry_loop ping timer_wins deadline n i t err mr) = returned p ∧
  length (probes (retry_loop ping timer_wins deadline n i t err mr)) = S k.
Proof.
  induction n as [|n IH]; intros i t err mr k p; [done|].
  loop_step n i t err mr; cbn [probes add_probe outcome finished_at length].
  - destruct k; [|done]. by intros [= <-].
  - destruct k; [|done]. by intros [= <-].
  - destruct k as [|k]; [by intros [= <-]|].
    intros Hk Hres. simpl in Hk.
    destruct (IH _ _ _ _ _ _ Hk Hres) as (? & ? & ?). by repeat split; f_equal.
Qed.

(** Without a successful probe the loop returns an error, provided it
    probes at all. *)
Lemma loop_failure n : ∀ i t err mr,
  (n ≠ 0)%nat ∨ err ≠ None →
  Forall (λ p, result p ≠ None)
    (probes (retry_loop ping timer_wins deadline n i t err mr)) →
  outcome (retry_loop ping timer_wins deadline n i t err mr) ≠ None.
Proof.
  induction n as [|n IH]; intros i t err mr Hn.
  - destruct Hn as [?|?]; done.
  - clear Hn. loop_step n i t err mr; cbn [probes add_probe outcome]; try done.
    + intros Hall. apply Forall_cons in Hall as [Hres _]. done.
    + intros Hall. apply Forall_cons in Hall as [_ Hall].
      apply IH; [by right | done].
Qed.

(** The loop is over by the deadline, or as soon as its last probe
    returns after it. *)
Lemma loop_finished n : ∀ i t err mr p,
  last (probes (retry_loop ping timer_wins deadline n i t err mr)) = Some p →
  finished_at (retry_loop ping timer_wins deadline n i t err mr)
  ≤ Z.max deadline (returned p).
Proof.
  induction n as [|n IH]; intros i t err mr p; [done|].
  loop_step n i t err mr; cbn [probes add_probe finished_at].
  - intros [= <-]; simpl; lia.
  - intros [= <-]; simpl; lia.
  - destruct n as [|n'].
    + simpl. intros [= <-]. lia.
    + rewrite last_cons.
      destruct (last (probes (retry_loop ping timer_wins deadline (S n') (S i)
                  (t1 + rate.Second * (Z.of_nat i + 1)) (Some e) mr))) as [q|] eqn:Hq.
      * intros [= <-]. by apply IH.
      * exfalso. apply last_None in Hq.
        by destruct (loop_cases n' (S i) (t1 + rate.Second * (Z.of_nat i + 1))
                       (Some e) mr).
Qed.

(** One iteration, by what [select] does after a failed probe. *)
Lemma loop_unfold n i t err mr :
  let run := retry_loop ping timer_wins deadline (S n) i t err mr in
  (∃ t1, ping i t = (t1, None) ∧ run = mkRun [mkProbe t t1 None] t1 None []) ∨
  (∃ t1 e w, ping i t = (t1, Some e) ∧ fires timer_wins deadline i t1 ∧
     run = add_probe (mkProbe t t1 (Some e)) w
             (retry_loop ping timer_wins deadline n (S i)
                (t1 + rate.Second * (Z.of_nat i + 1)) (Some e) mr)) ∨
  (∃ t1 e w, ping i t = (t1, Some e) ∧ ¬ fires timer_wins deadline i t1 ∧
     run = mkRun [mkProbe t t1 (Some e)] (Z.max t1 deadline)
             (Some (Sentinel DeadlineExceeded)) w).
Proof.
  cbv zeta. cbn [retry_loop]. unfold fires.
  destruct (ping i t) as [t1 [e|]] eqn:Hp; cbv zeta.
  2:{ left. exists t1. split; reflexivity. }
  right.
  assert (0 < rate.Second * (Z.of_nat i + 1)) as Hpos by (unfold rate.Second; lia).
  destruct (Z.leb_spec deadline t1).
  { right. eexists t1, e, _. split; [reflexivity|]. split; [lia|].
    f_equal. lia. }
  destruct (Z.ltb_spec (t1 + rate.Second * (Z.of_nat i + 1)) deadline); cbn [orb].
  { left. eexists t1, e, _. split; [reflexivity|]. split; [by left | reflexivity]. }
  destruct (Z.eqb_spec (t1 + rate.Second * (Z.of_nat i + 1)) deadline); cbn [andb].
  - destruct (timer_wins i) eqn:Hw.
    + left. eexists t1, e, _. split; [reflexivity|].
      split; [right; by split | reflexivity].
    + right. eexists t1, e, _. split; [reflexivity|]. split.
      * intros [?|[_ ?]]; [lia | discriminate].
      * reflexivity.
  - right. eexists t1, e, _. split; [reflexivity|]. split.
    + intros [?|[? _]]; [lia | contradiction].
    + reflexivity.
Qed.

Ltac loop_unfold n i t err mr :=
  destruct (loop_unfold n i t err mr)
    as [(t1 & Hping & ->) | [(t1 & e & w & Hping & Hfires & ->)
                            | (t1 & e & w & Hping & Hfires & ->)]].

Lemma loop_nonempty n i t err mr :
  is_Some (probes (retry_loop ping timer_wins deadline (S n) i t err mr) !! 0%nat).
Proof. loop_unfold n i t err mr; cbn; by eexists. Qed.

(** A failed probe is followed by another exactly when tries are left
    and its timer beats the context. *)
Lemma loop_next n : ∀ i t err mr k p,
  probes (retry_loop ping timer_wins deadline n i t err mr) !! k = Some p →
  is_Some (probes (retry_loop ping timer_wins deadline n i t err mr) !! S k)
  ↔ (S k < n)%nat ∧ result p ≠ None ∧
    fires timer_wins deadline (i + k) (returned p).
Proof.
  induction n as [|n IH]; intros i t err mr k p; [discriminate 1|].
  loop_unfold n i t err mr; cbn [probes add_probe].
  - destruct k as [|k]; [|discriminate 1]. intros [= <-]. cbn.
    split; [intros [? [=]] | intros (_ & H & _); contradiction].
  - destruct k as [|k]; cbn [lookup list_lookup].
    + intros [= <-]. cbn [result returned]. rewrite Nat.add_0_r.
      destruct n as [|n].
      * cbn. split; [intros [? [=]] | intros (? & _); lia].
      * split; [|intros _; apply loop_nonempty].
        intros _. split; [lia|]. split; [discriminate | exact Hfires].
    + intros Hk. rewrite (IH _ _ _ _ _ _ Hk).
      replace (S i + k)%nat with (i + S k)%nat by lia.
      split; intros (? & ? & ?); (split; [lia|]); split; assumption.
  - destruct k as [|k]; [|discriminate 1]. intros [= <-]. cbn.
    rewrite Nat.add_0_r.
    split; [intros [? [=]] | intros (_ & _ & H); contradiction].
Qed.

(** How the loop ends after a failed last probe: when that was the last
    try and its timer beats the context, with the probe's error once
    the wait is over; otherwise with the context's error, at the
    deadline or at the probe's return if that is later. *)
Lemma loop_last n : ∀ i t err mr k p e,
  probes (retry_loop ping timer_wins deadline n i t err mr) !! k = Some p →
  probes (retry_loop ping timer_wins deadline n i t err mr) !! S k = None →
  result p = Some e →
  (S k = n ∧ fires timer_wins deadline (i + k) (returned p) →
   outcome (retry_loop ping timer_wins deadline n i t err mr) = Some e ∧
   finished_at (retry_loop ping timer_wins deadline n i t err mr)
   = returned p + rate.Second * (Z.of_nat (i + k) + 1)) ∧
  (¬ (S k = n ∧ fires timer_wins deadline (i + k) (returned p)) →
   outcome (retry_loop ping timer_wins deadline n i t err mr)
   = Some (Sentinel DeadlineExceeded) ∧
   finished_at (retry_loop ping timer_wins deadline n i t err mr)
   = Z.max (returned p) deadline).
Proof.
  induction n as [|n IH]; intros i t err mr k p ep; [discriminate 1|].
  loop_unfold n i t err mr; cbn [probes add_probe outcome finished_at].
  - destruct k as [|k]; [|discriminate 1]. intros [= <-]. discriminate 2.
  - destruct k as [|k]; cbn [lookup list_lookup].
    + intros [= <-] Hnone. cbn [result returned]. intros [= <-].
      rewrite Nat.add_0_r. destruct n as [|n].
      * cbn. split; [intros _; split; reflexivity|].
        intros Hno. exfalso. apply Hno. split; [reflexivity | exact Hfires].
      * destruct (loop_nonempty n (S i) (t1 + rate.Second * (Z.of_nat i + 1))
                    (Some e) mr) as [q Hq].
        pose proof (eq_trans (eq_sym Hq) Hnone) as Hbad. discriminate Hbad.
    + intros Hk Hnone Hres.
      destruct (IH _ _ _ _ _ _ _ Hk Hnone Hres) as [H1 H2].
      replace (S i + k)%nat with (i + S k)%nat in H1, H2 by lia.
      split.
      * intros [Hn Hf]. apply H1. split; [lia | exact Hf].
      * intros Hno. apply H2. intros [Hn Hf]. apply Hno. split; [lia | exact Hf].
  - destruct k as [|k]; [|discriminate 1]. intros [= <-] _. cbn [result returned].
    intros [= <-]. rewrite Nat.add_0_r.
    split; [intros [_ H]; contradiction | intros _; split; reflexivity].
Qed.

(** The loop ends without error, or with the context's error, or it has
    sat through every wait and was still within the deadline. *)
Lemma loop_outcome n : ∀ i t err mr,
  causal ping →
  let run := retry_loop ping timer_wins deadline n i t err mr in
  outcome run = None ∨ outcome run = Some (Sentinel DeadlineExceeded) ∨
  (t + backoff_sum n i ≤ finished_at run ∧ finished_at run ≤ Z.max t deadline).
Proof.
  induction n as [|n IH]; intros i t err mr Hc; cbv zeta.
  - right; right. cbn. lia.
  - loop_step n i t err mr; cbn [outcome add_probe finished_at].
    + by left.
    + right; by left.
    + pose proof (Hc i t) as Ht. rewrite Hping in Ht. cbn [fst] in Ht.
      destruct (IH (S i) (t1 + rate.Second * (Z.of_nat i + 1)) (Some e) mr Hc)
        as [H|[H|[H1 H2]]]; [by left | right; by left |].
      right; right. cbn [backoff_sum]. unfold rate.Second in *. lia.
Qed.

End loop.

Lemma New_run ping timer_wins t :
  fst (New ping timer_wins t)
  = pingWithRetry ping timer_wins (t + 10 * rate.Second) t 5.
Proof. unfold New. by destruct (outcome _). Qed.

Lemma New_error ping timer_wins t :
  snd (New ping timer_wins t)
  = Wrap "failed to ping database" <$>
    outcome (pingWithRetry ping timer_wins (t + 10 * rate.Second) t 5).
Proof. unfold New. by destruct (outcome _). Qed.

(** With a storage side that never answers, the fifth probe is only
    made when the fourth backoff timer wins the tie with the deadline. *)
Example ping_never_answers_tie :
  let run := fst (New (λ _ t, (t, Some (Foreign "connection refused"))) (λ _, true) 0) in
  (started <$> probes run) = [0; 1000000000; 3000000000; 6000000000; 10000000000]
  ∧ outcome run = Some (Sentinel DeadlineExceeded).
Proof. split; reflexivity. Qed.

Example ping_never_answers :
  let run := fst (New (λ _ t, (t, Some (Foreign "connection refused"))) (λ _, false) 0) in
  (started <$> probes run) = [0; 1000000000; 3000000000; 6000000000]
  ∧ finished_at run = 10000000000
  ∧ outcome run = Some (Sentinel DeadlineExceeded).
Proof. repeat split; reflexivity. Qed.

Example ping_answers_third :
  let ping := λ (i : nat) (t : Z),
    (t + 20000000, if (i <? 2)%nat then Some (Foreign "connection refused") else None) in
  let run := fst (New ping (λ _, false) 0) in
  (started <$> probes run) = [0; 1020000000; 3040000000]
  ∧ finished_at run = 3060000000
  ∧ main_startup ping (λ _, false) 0 = Serving.
Proof. repeat split; reflexivity. Qed.

(** C7: at startup [New] checks the storage with at most five probes
    under a deadline ten seconds away.  The first probe is made at once;
    after the failure of probe number [k] the loop waits [k] seconds,
    and the next probe is made exactly when tries are left and that wait
    is over before the deadline (or at the deadline, the timer winning
    the tie); a probe that succeeds is the last, and [New] returns at
    once without error, so that [main] goes on to serve; when no probe
    succeeds [New] returns an error and [main] stops with a fatal log
    record: the fifth probe's own error, five seconds after that probe,
    when that wait is over by the deadline, and otherwise the expired
    context's error, at the deadline; with probes that take no negative
    time the five waits do not fit into the ten seconds, so the failure
    is always the expired context; and the loop never waits beyond the
    deadline. *)
Theorem startup_ping_with_retry ping timer_wins t :
  let run := fst (New ping timer_wins t) in
  let deadline := t + 10 * rate.Second in
  (1 ≤ length (probes run) ≤ 5)%nat ∧
  (∀ k p, probes run !! k = Some p →
     ping k (started p) = (returned p, result p)) ∧
  (∀ p, probes run !! 0%nat = Some p → started p = t) ∧
  (∀ k p p', probes run !! k = Some p → probes run !! S k = Some p' →
     result p ≠ None ∧
     started p' = returned p + (Z.of_nat k + 1) * rate.Second ∧
     started p' ≤ deadline) ∧
  (∀ k p, probes run !! k = Some p →
     is_Some (probes run !! S k)
     ↔ (k < 4)%nat ∧ result p ≠ None ∧
       fires timer_wins deadline k (returned p)) ∧
  (∀ k p, probes run !! k = Some p → result p = None →
     length (probes run) = S k ∧ finished_at run = returned p ∧
     snd (New ping timer_wins t) = None ∧
     main_startup ping timer_wins t = Serving) ∧
  (Forall (λ p, result p ≠ None) (probes run) →
     ∃ e, snd (New ping timer_wins t) = Some (Wrap "failed to ping database" e) ∧
          main_startup ping timer_wins t
          = Fatal "failed to connect to database" (Wrap "failed to ping database" e)) ∧
  (∀ k p e, probes run !! k = Some p → probes run !! S k = None →
     result p = Some e →
     (k = 4%nat ∧ fires timer_wins deadline k (returned p) →
      snd (New ping timer_wins t) = Some (Wrap "failed to ping database" e) ∧
      main_startup ping timer_wins t
      = Fatal "failed to connect to database" (Wrap "failed to ping database" e) ∧
      finished_at run = returned p + 5 * rate.Second) ∧
     (¬ (k = 4%nat ∧ fires timer_wins deadline k (returned p)) →
      snd (New ping timer_wins t)
      = Some (Wrap "failed to ping database" (Sentinel DeadlineExceeded)) ∧
      main_startup ping timer_wins t
      = Fatal "failed to connect to database"
          (Wrap "failed to ping database" (Sentinel DeadlineExceeded)) ∧
      finished_at run = Z.max (returned p) deadline)) ∧
  (causal ping →
     ∀ e, snd (New ping timer_wins t) = Some e →
          e = Wrap "failed to ping database" (Sentinel DeadlineExceeded)) ∧
  (∀ p, last (probes run) = Some p →
     finished_at run ≤ Z.max deadline (returned p)).
Proof.
  cbv zeta. rewrite New_run. unfold main_startup. rewrite New_error.
  unfold pingWithRetry. change (Z.to_nat 5) with 5%nat.
  set (deadline := t + 10 * rate.Second).
  split; [|split; [|split; [|split; [|split; [|split; [|split; [|split; [|split]]]]]]]].
  - split; [|apply loop_length].
    destruct (loop_cases ping timer_wins deadline 4 0 t None 5);
      cbn [probes add_probe length]; lia.
  - intros k p Hk. by apply loop_probe in Hk.
  - intros p Hp. by apply loop_first in Hp.
  - intros k p p' Hk Hk'.
    destruct (loop_backoff _ _ _ _ _ _ _ _ _ _ _ Hk Hk') as (? & ? & ? & ?).
    repeat split; try done. simpl in *. lia.
  - intros k p Hk. rewrite (loop_next _ _ _ _ _ _ _ _ _ _ Hk). cbn [Nat.add].
    split; intros (? & ? & ?); (split; [lia|]); split; assumption.
  - intros k p Hk Hres.
    destruct (loop_success _ _ _ _ _ _ _ _ _ _ Hk Hres) as (Ho & ? & ?).
    rewrite Ho. by repeat split.
  - intros Hall. apply loop_failure in Hall; [|by left].
    destruct (outcome _) as [e|]; [|done]. by exists e.
  - intros k p e Hk Hnone Hres.
    destruct (loop_last _ _ _ _ _ _ _ _ _ _ _ Hk Hnone Hres) as [H1 H2].
    cbn [Nat.add] in H1, H2. split.
    + intros [-> Hf]. destruct H1 as [Ho Hfin]; [split; [reflexivity | exact Hf]|].
      rewrite Ho, Hfin. cbn [fmap option_fmap option_map].
      split; [reflexivity|]. split; [reflexivity|]. unfold rate.Second. lia.
    + intros Hno. destruct H2 as [Ho Hfin].
      { intros [Hn Hf]. apply Hno. split; [lia | exact Hf]. }
      rewrite Ho, Hfin. cbn [fmap option_fmap option_map].
      split; [reflexivity|]. split; reflexivity.
  - intros Hc e.
    destruct (loop_outcome ping timer_wins deadline 5 0 t None 5 Hc) as [H|[H|[H1 H2]]].
    + rewrite H. discriminate.
    + rewrite H. cbn. intros [= <-]. reflexivity.
    + exfalso. change (backoff_sum 5 0) with (15 * rate.Second) in H1.
      subst deadline. unfold rate.Second in *. lia.
  - intros p Hp. by apply loop_finished.
Qed.

End startup_facts.

Module token_facts.
Import json jwt services.

Lemma floor_log2_int a : 0 < a → floor_log2 a 1 = Z.log2 a.
Proof.
  intros Ha. unfold floor_log2. change (Z.log2 1) with 0. rewrite Z.sub_0_r.
  pose proof (Z.log2_nonneg a). pose proof (Z.log2_spec a Ha) as [Hlo _].
  destruct (Z.leb_spec 0 (Z.log2 a)); [|lia].
  destruct (Z.ltb_spec a (1 * 2 ^ Z.log2 a)); lia.
Qed.

Lemma to_int64_small z : Z.abs z ≤ 2 ^ 53 → to_int64 z = z.
Proof.
  intros Hz. unfold to_int64, MinInt64.
  change (2 ^ 53) with 9007199254740992 in Hz.
  change (2 ^ 63) with 9223372036854775808.
  rewrite (proj2 (Z.leb_le _ _)), (proj2 (Z.ltb_lt _ _)) by lia. done.
Qed.

(** An integer of magnitude at most [2^53] is a float64: the JSON
    decoder gives it back exactly. *)
Lemma round64_int z :
  Z.abs z ≤ 2 ^ 53 →
  ∃ f, round64 (of_int z) = Some f ∧ trunc f = z ∧ floor f = z ∧
       is_zero f = (z =? 0).
Proof.
  intros Hz. unfold round64, of_int. cbn [numer denom].
  destruct (Z.eqb_spec z 0) as [->|Hne]; [by eexists|].
  set (a := Z.abs z). assert (Ha : 0 < a) by lia.
  rewrite floor_log2_int by done.
  pose proof (Z.log2_nonneg a) as He0.
  pose proof (Z.log2_spec a Ha) as [Hlo Hhi].
  assert (He : Z.log2 a ≤ 53).
  { destruct (Z.lt_ge_cases 53 (Z.log2 a)) as [Hgt|]; [|lia].
    assert (2 ^ 54 ≤ 2 ^ Z.log2 a) by (apply Z.pow_le_mono_r; lia). lia. }
  rewrite Z.max_l by lia. set (e := Z.log2 a) in *.
  assert (Hsgn : Z.sgn z * a = z) by (subst a; lia).
  destruct (Z.leb_spec (e - 52) 0) as [Hsh|Hsh].
  - set (p := 2 ^ (- (e - 52))). assert (Hp : 0 < p) by (apply Z.pow_pos_nonneg; lia).
    rewrite Z.div_1_r, Z.mod_1_r. change (2 * 0 <? 1) with true. cbv iota.
    assert (Hm : a * p < 2 ^ 53).
    { replace (2 ^ 53) with (2 ^ Z.succ e * p).
      - apply Z.mul_lt_mono_pos_r; done.
      - subst p. rewrite <- Z.pow_add_r by lia. f_equal. lia. }
    assert (Hov : (0 <=? e - 52) && (2 ^ 1024 <=? a * p * 2 ^ (e - 52)) = false).
    { destruct (Z.leb_spec 0 (e - 52)); [|done]. simpl.
      replace (e - 52) with 0 by lia. apply Z.leb_gt. 
      change (2 ^ 0) with 1. rewrite Z.mul_1_r.
      assert (2 ^ 53 < 2 ^ 1024) by (apply Z.pow_lt_mono_r; lia). lia. }
    rewrite Hov. eexists; split; [reflexivity|].
    unfold trunc, floor, is_zero. cbn [mant expo].
    rewrite Z.mul_assoc, Hsgn. fold p.
    assert (Hz0 : (z * p =? 0) = false).
    { apply Z.eqb_neq, Z.neq_mul_0. split; lia. }
    rewrite Hz0.
    destruct (Z.leb_spec 0 (e - 52)).
    + assert (Hp1 : p = 1) by (subst p; replace (- (e - 52)) with 0 by lia; done).
      replace (e - 52) with 0 by lia. rewrite Hp1. change (2 ^ 0) with 1.
      rewrite !Z.mul_1_r. done.
    + rewrite Z.quot_mul, Z.div_mul by lia. done.
  - assert (Hz53 : z = 9007199254740992 ∨ z = -9007199254740992).
    { assert (e = 53) as He53 by lia. rewrite He53 in *.
      change (2 ^ 53) with 9007199254740992 in *. lia. }
    clear -Hz53. subst e a.
    destruct Hz53 as [-> | ->].
    + exists (mkFloat 4503599627370496 1). by vm_compute.
    + exists (mkFloat (-4503599627370496) 1). by vm_compute.
Qed.


Lemma decode_object_lookup m m' k :
  decode_object m = Some m' → m' !! k = m !! k ≫= decode_value.
Proof.
  unfold decode_object. case_bool_decide; [|done]. intros [= <-].
  apply lookup_omap.
Qed.

Lemma decode_object_Some m :
  (∀ k v, m !! k = Some v → is_Some (decode_value v)) →
  is_Some (decode_object m).
Proof.
  intros H. unfold decode_object. rewrite bool_decide_eq_true_2; [done|].
  intros k v Hk. by eapply H.
Qed.

(** The claims [generateToken] writes decode without loss when subject
    and expiry are float64 integers. *)
Lemma decode_issued_claims sub iat exp fsub fexp :
  round64 (of_int sub) = Some fsub → round64 (of_int exp) = Some fexp →
  is_Some (round64 (of_int iat)) →
  ∃ cls,
    decode_segment (Object {[ "sub" := Num (of_int sub); "iat" := Num (of_int iat);
                              "exp" := Num (of_int exp) ]}) = Some cls ∧
    cls !! "sub" = Some (AFloat fsub) ∧ cls !! "exp" = Some (AFloat fexp) ∧
    cls !! "nbf" = None.
Proof.
  intros Hsub Hexp [fiat Hiat]. cbn [decode_segment].
  destruct (decode_object_Some
    ({[ "sub" := Num (of_int sub); "iat" := Num (of_int iat);
        "exp" := Num (of_int exp) ]})) as [cls Hcls].
  { intros k v. rewrite !lookup_insert_Some, lookup_singleton_Some.
    intros [[_ <-] | [_ [[_ <-] | [_ [_ <-]]]]];
      cbn [decode_value]; by rewrite ?Hsub, ?Hiat, ?Hexp. }
  exists cls. split; [done|].
  rewrite !(decode_object_lookup _ _ _ Hcls).
  rewrite lookup_insert_eq. cbn. rewrite Hsub.
  rewrite lookup_insert_ne, lookup_insert_ne, lookup_singleton_eq by done. cbn. rewrite Hexp.
  rewrite lookup_insert_ne, lookup_insert_ne, lookup_singleton_ne by done. repeat split.
Qed.

Lemma issued_header_decodes :
  ∃ hdr, decode_segment (Object {[ "typ" := Str "JWT"; "alg" := Str "HS256" ]}) = Some hdr
         ∧ hdr !! "alg" = Some (AString "HS256").
Proof. eexists. split; [vm_compute; reflexivity|]. by vm_compute. Qed.

(** C2, amended: a token issued for a subject that is a float64 integer
    validates to that subject as long as it has at least a second
    left of its 24 hours. *)
Theorem token_round_trip s now now' userID :
  Z.abs userID ≤ 2 ^ 53 →
  - 2 ^ 63 ≤ now < 2 ^ 63 →
  now ≤ now' → now' + rate.Second ≤ now + 24 * Hour →
  ∃ tokenString,
    generateToken s now userID = Ok tokenString ∧
    ValidateToken s now' tokenString = Ok userID.
Proof.
  intros Hid Hnow Hle Hlate.
  eexists. split; [reflexivity|].
  set (exp := Unix (now + 24 * Hour)).
  assert (Hexp_lo : now' < exp * rate.Second).
  { subst exp. unfold Unix.
    pose proof (Z.mul_succ_div_gt (now + 24 * Hour) rate.Second ltac:(done)). lia. }
  assert (Hexp_hi : Z.abs exp ≤ 2 ^ 53).
  { subst exp. unfold Unix, Hour, rate.Second in *.
    change (2 ^ 63) with 9223372036854775808 in Hnow.
    change (2 ^ 53) with 9007199254740992.
    pose proof (Z.div_le_mono (-9223372036854775808) (now + 24 * (3600 * 1000000000))
                  1000000000 ltac:(done) ltac:(lia)).
    pose proof (Z.div_le_mono (now + 24 * (3600 * 1000000000)) 9223458436854775808
                  1000000000 ltac:(done) ltac:(lia)).
    change (-9223372036854775808 / 1000000000) with (-9223372037) in *.
    change (9223458436854775808 / 1000000000) with 9223458436 in *. lia. }
  assert (Hiat_hi : Z.abs (Unix now) ≤ 2 ^ 53).
  { unfold Unix, rate.Second in *.
    change (2 ^ 63) with 9223372036854775808 in Hnow.
    change (2 ^ 53) with 9007199254740992.
    pose proof (Z.div_le_mono (-9223372036854775808) now 1000000000 ltac:(done) ltac:(lia)).
    pose proof (Z.div_le_mono now 9223372036854775808 1000000000 ltac:(done) ltac:(lia)).
    change (-9223372036854775808 / 1000000000) with (-9223372037) in *.
    change (9223372036854775808 / 1000000000) with 9223372036 in *. lia. }
  destruct (round64_int userID Hid) as (fsub & Hfsub & Hsub_t & _ & _).
  destruct (round64_int exp Hexp_hi) as (fexp & Hfexp & Hexp_t & Hexp_f & Hexp_z).
  destruct (round64_int (Unix now) Hiat_hi) as (fiat & Hfiat & _).
  destruct (decode_issued_claims userID (Unix now) exp fsub fexp Hfsub Hfexp
              ltac:(by eexists)) as (cls & Hcls & Hs & He & Hn).
  destruct issued_header_decodes as (hdr & Hhdr & Halg).
  unfold ValidateToken, Parse. fold exp. rewrite Hhdr, Hcls, Halg.
  change (GetSigningMethod "HS256") with (Some (SigningMethodHMAC SHA256)).
  cbn [keyFunc Method is_hmac Verify]. fold exp.
  rewrite bool_decide_eq_true_2 by done.
  assert (HV : Validate now' cls = []).
  { unfold Validate, parseNumericDate. rewrite He, Hn, Hexp_z.
    destruct (Z.eqb_spec exp 0); [done|].
    unfold seconds. rewrite Hexp_t, Hexp_f.
    rewrite (to_int64_small exp) by done.
    rewrite bool_decide_eq_true_2 by done.
    destruct (Z.ltb_spec now' (exp * rate.Second)); [done|lia]. }
  rewrite HV. cbn [Valid negb Claims]. rewrite Hs, Hsub_t. f_equal.
  by apply to_int64_small.
Qed.


Lemma token_round_trip_witness :
  ∃ tokenString,
    generateToken (mkAuthService "s3cret") 1700000000123456789 42 = Ok tokenString ∧
    ValidateToken (mkAuthService "s3cret") 1700000005000000000 tokenString = Ok 42.
Proof.
  apply (token_round_trip (mkAuthService "s3cret") 1700000000123456789
           1700000005000000000 42).
  - vm_compute. discriminate.
  - split; vm_compute; [discriminate | reflexivity].
  - vm_compute. discriminate.
  - vm_compute. discriminate.
Defined.

(** C2 as worded fails for a subject that is not a float64 integer:
    the token issued for [2^53 + 1] validates to [2^53]. *)
Lemma token_round_trip_large_subject :
  ∃ tokenString,
    generateToken (mkAuthService "s3cret") 1700000000123456789 9007199254740993
    = Ok tokenString ∧
    ValidateToken (mkAuthService "s3cret") 1700000000123456789 tokenString
    = Ok 9007199254740992 ∧
    ValidateToken (mkAuthService "s3cret") 1700000000123456789 tokenString
    ≠ Ok 9007199254740993.
Proof.
  eexists. split; [reflexivity|]. split; [by vm_compute|].
  vm_compute. discriminate.
Qed.

(** C3: a token whose header does not name an algorithm of the HMAC
    family (a registered algorithm of another family, none, an unknown
    name, or no name at all) is rejected by the parser, whatever its
    claims and signature, the secret and the clock. *)
Theorem alg_outside_hmac_rejected s now header claims signature :
  ¬ claims_hmac_alg header →
  ∃ e, ValidateToken s now (Compact header claims signature) = Err (ParseFailed e) ∧
       (e = ErrTokenMalformed ∨ e = ErrTokenUnverifiable).
Proof.
  intros Hno. unfold ValidateToken, Parse.
  destruct (decode_segment header) as [hdr|] eqn:Hh; [|by eexists; split; [|left]].
  destruct (decode_segment claims) as [cls|]; [|by eexists; split; [|left]].
  destruct (hdr !! "alg") as [[| | |alg|]|] eqn:Halg;
    try (by eexists; split; [|right]).
  destruct (GetSigningMethod alg) as [m|] eqn:Hm; [|by eexists; split; [|right]].
  destruct signature as [sig|]; [|by eexists; split; [|left]].
  unfold keyFunc. cbn [Method].
  destruct m; cbn [is_hmac]; try (by eexists; split; [|right]).
  exfalso. apply Hno. by exists hdr, alg, h.
Qed.

Lemma alg_outside_hmac_rejected_witness :
  let header := Object {[ "typ" := Str "JWT"; "alg" := Str "none" ]} in
  let claims := Object {[ "sub" := Num (of_int 1) ]} in
  ∃ e, ValidateToken (mkAuthService "s3cret") 1700000000123456789
         (Compact header claims (Some (Tag SHA256 "s3cret" header claims)))
       = Err (ParseFailed e) ∧
       (e = ErrTokenMalformed ∨ e = ErrTokenUnverifiable).
Proof.
  apply (alg_outside_hmac_rejected (mkAuthService "s3cret") 1700000000123456789).
  intros (hdr & alg & h & Hd & Ha & Hg).
  vm_compute in Hd. injection Hd as <-.
  vm_compute in Ha. injection Ha as <-.
  vm_compute in Hg. discriminate.
Defined.


(** What [ValidateToken] returns for a verified token. *)
Lemma ValidateToken_verified s now tokenString cls :
  verified s tokenString cls →
  ValidateToken s now tokenString
  = match Validate now cls with
    | [] => match cls !! "sub" with
            | Some (AFloat sub) => Ok (to_int64 (trunc sub))
            | _ => Err InvalidTokenSubject
            end
    | errs => Err (ParseFailed (ErrTokenInvalidClaims errs))
    end.
Proof.
  intros (header & claims & hdr & alg & h & -> & Hh & Hc & Halg & Hm).
  unfold ValidateToken, Parse. rewrite Hh, Hc, Halg, Hm.
  cbn [keyFunc Method is_hmac Verify]. rewrite bool_decide_eq_true_2 by done.
  by destruct (Validate now cls).
Qed.

(** What it returns for any other token. *)
Lemma ValidateToken_unverified s now tokenString :
  (∀ cls, ¬ verified s tokenString cls) →
  ∃ e, ValidateToken s now tokenString = Err (ParseFailed e) ∧
       (e = ErrTokenMalformed ↔ malformed tokenString) ∧
       (e = ErrTokenMalformed ∨ e = ErrTokenUnverifiable ∨ e = ErrTokenSignatureInvalid).
Proof.
  intros Hno. unfold ValidateToken, Parse, malformed.
  destruct tokenString as [|header claims signature].
  { eexists. split; [done|]. split; [done | by left]. }
  destruct (decode_segment header) as [hdr|] eqn:Hh.
  2:{ eexists. split; [done|]. split; [|by left]. split; [by left | done]. }
  destruct (decode_segment claims) as [cls|] eqn:Hc.
  2:{ eexists. split; [done|]. split; [|by left]. split; [by right; left | done]. }
  destruct (hdr !! "alg") as [[| | |alg|]|] eqn:Halg.
  1-3,5-6: eexists; split; [done|]; split; [|by right; left];
    (split; [done|]); intros [?|[?|(_ & hdr' & alg' & [= <-] & ? & _)]]; congruence.
  destruct (GetSigningMethod alg) as [m|] eqn:Hm.
  2:{ eexists. split; [done|]. split; [|by right; left]. split; [done|].
      intros [?|[?|(_ & hdr' & alg' & [= <-] & Ha & Hs)]]; try done.
      rewrite Halg in Ha. injection Ha as <-. rewrite Hm in Hs. by destruct Hs. }
  destruct signature as [sig|].
  2:{ eexists. split; [done|]. split; [|by left]. split; [|done].
      intros _. right; right. split; [done|]. exists hdr, alg. by rewrite Hm. }
  unfold keyFunc. cbn [Method].
  destruct (is_hmac m) eqn:Hhm.
  2:{ eexists. split; [done|]. split; [|by right; left]. split; [done|].
      intros [?|[?|(? & _)]]; done. }
  destruct m as [h| | | | |]; try done. cbn [Verify].
  case_bool_decide as Hsig.
  { exfalso. apply (Hno cls). subst sig. by exists header, claims, hdr, alg, h. }
  eexists. split; [done|]. split; [|by right; right]. split; [done|].
  intros [?|[?|(? & _)]]; done.
Qed.

Lemma Validate_expired now cls :
  ErrTokenExpired ∈ Validate now cls ↔
  ∃ exp, cls !! "exp" = Some (AFloat exp) ∧ is_zero exp = false ∧
         seconds exp * rate.Second ≤ now.
Proof.
  unfold Validate, parseNumericDate. rewrite elem_of_app. split.
  - intros [H|H].
    + destruct (cls !! "exp") as [[| |f| |]|]; try (by apply list_elem_of_singleton in H);
        try (by apply elem_of_nil in H).
      destruct (is_zero f) eqn:Hz; [by apply elem_of_nil in H|].
      destruct (Z.ltb_spec now (seconds f * rate.Second)); [by apply elem_of_nil in H|].
      by exists f.
    + destruct (cls !! "nbf") as [[| |f| |]|]; try (by apply list_elem_of_singleton in H);
        try (by apply elem_of_nil in H).
      destruct (is_zero f); [by apply elem_of_nil in H|].
      destruct (now <? _); [by apply list_elem_of_singleton in H | by apply elem_of_nil in H].
  - intros (f & -> & -> & Hle). left.
    destruct (Z.ltb_spec now (seconds f * rate.Second)); [lia|].
    by apply list_elem_of_singleton.
Qed.


Lemma Validate_not_yet now cls :
  ErrTokenNotValidYet ∈ Validate now cls ↔
  ∃ nbf, cls !! "nbf" = Some (AFloat nbf) ∧ is_zero nbf = false ∧
         now < seconds nbf * rate.Second.
Proof.
  unfold Validate, parseNumericDate. rewrite elem_of_app. split.
  - intros [H|H].
    + destruct (cls !! "exp") as [[| |f| |]|]; try (by apply list_elem_of_singleton in H);
        try (by apply elem_of_nil in H).
      destruct (is_zero f); [by apply elem_of_nil in H|].
      destruct (now <? _); [by apply elem_of_nil in H | by apply list_elem_of_singleton in H].
    + destruct (cls !! "nbf") as [[| |f| |]|]; try (by apply list_elem_of_singleton in H);
        try (by apply elem_of_nil in H).
      destruct (is_zero f) eqn:Hz; [by apply elem_of_nil in H|].
      destruct (Z.ltb_spec now (seconds f * rate.Second)); [|by apply elem_of_nil in H].
      by exists f.
  - intros (f & -> & -> & Hlt). right.
    destruct (Z.ltb_spec now (seconds f * rate.Second)); [|lia].
    by apply list_elem_of_singleton.
Qed.



(** Whether a token is verified can be decided. *)
Lemma classic_verified s tokenString :
  (∃ cls, verified s tokenString cls) ∨ (∀ cls, ¬ verified s tokenString cls).
Proof.
  destruct tokenString as [|header claims [[h key h' c'|raw]|]];
    try (right; intros cls (? & ? & ? & ? & ? & [=] & _); done).
  destruct (decode_segment header) as [hdr|] eqn:Hh;
    [|right; intros cls (? & ? & ? & ? & ? & [= <- <- _] & ? & _); congruence].
  destruct (decode_segment claims) as [cls|] eqn:Hc;
    [|right; intros cls (? & ? & ? & ? & ? & [= <- <- _] & ? & ? & _); congruence].
  destruct (hdr !! "alg") as [[| | |alg|]|] eqn:Halg;
    try (right; intros cls' (? & ? & ? & ? & ? & [= <- <- _] & ? & ? & ? & _); congruence).
  destruct (GetSigningMethod alg) as [[hh| | | | |]|] eqn:Hm;
    try (right; intros cls' (? & ? & ? & ? & ? & [= <- <- _] & ? & ? & ? & ?); congruence).
  destruct (decide (Tag h key h' c' = Tag hh (jwtSecret s) header claims)) as [Heq|Hne].
  - left. exists cls. injection Heq as -> -> -> ->.
    by exists header, claims, hdr, alg, hh.
  - right. intros cls' (? & ? & ? & ? & ? & [= <- <- Hk Hh' Hc'] & ? & ? & ? & ?).
    apply Hne. congruence.
Qed.


End token_facts.

Module token_more.
Import json jwt services token_facts.

(** The token [generateToken] issues is verified under the issuing
    service's secret, and its claims decode to the subject, the expiry
    24 hours after the second of issue, and no [nbf]. *)
Lemma issued_token_verified s now userID :
  Z.abs userID ≤ 2 ^ 53 → - 2 ^ 63 ≤ now < 2 ^ 63 →
  ∃ tokenString cls fsub fexp,
    generateToken s now userID = Ok tokenString ∧
    verified s tokenString cls ∧
    cls !! "sub" = Some (AFloat fsub) ∧ trunc fsub = userID ∧
    cls !! "exp" = Some (AFloat fexp) ∧
    seconds fexp = Unix (now + 24 * Hour) ∧
    is_zero fexp = (Unix (now + 24 * Hour) =? 0) ∧
    cls !! "nbf" = None.
Proof.
  intros Hid Hnow.
  set (exp := Unix (now + 24 * Hour)).
  assert (Hexp_hi : Z.abs exp ≤ 2 ^ 53).
  { subst exp. unfold Unix, Hour, rate.Second in *.
    change (2 ^ 63) with 9223372036854775808 in Hnow.
    change (2 ^ 53) with 9007199254740992.
    pose proof (Z.div_le_mono (-9223372036854775808) (now + 24 * (3600 * 1000000000))
                  1000000000 ltac:(done) ltac:(lia)).
    pose proof (Z.div_le_mono (now + 24 * (3600 * 1000000000)) 9223458436854775808
                  1000000000 ltac:(done) ltac:(lia)).
    change (-9223372036854775808 / 1000000000) with (-9223372037) in *.
    change (9223458436854775808 / 1000000000) with 9223458436 in *. lia. }
  assert (Hiat_hi : Z.abs (Unix now) ≤ 2 ^ 53).
  { unfold Unix, rate.Second in *.
    change (2 ^ 63) with 9223372036854775808 in Hnow.
    change (2 ^ 53) with 9007199254740992.
    pose proof (Z.div_le_mono (-9223372036854775808) now 1000000000 ltac:(done) ltac:(lia)).
    pose proof (Z.div_le_mono now 9223372036854775808 1000000000 ltac:(done) ltac:(lia)).
    change (-9223372036854775808 / 1000000000) with (-9223372037) in *.
    change (9223372036854775808 / 1000000000) with 9223372036 in *. lia. }
  destruct (round64_int userID Hid) as (fsub & Hfsub & Hsub_t & _ & _).
  destruct (round64_int exp Hexp_hi) as (fexp & Hfexp & Hexp_t & Hexp_f & Hexp_z).
  destruct (round64_int (Unix now) Hiat_hi) as (fiat & Hfiat & _).
  destruct (decode_issued_claims userID (Unix now) exp fsub fexp Hfsub Hfexp
              ltac:(eexists; exact Hfiat)) as (cls & Hcls & Hs & He & Hn).
  destruct issued_header_decodes as (hdr & Hhdr & Halg).
  eexists _, cls, fsub, fexp. split; [reflexivity|].
  split.
  { eexists _, _, hdr, "HS256", SHA256. split; [reflexivity|].
    split; [exact Hhdr|]. split; [exact Hcls|]. split; [exact Halg|]. reflexivity. }
  split; [exact Hs|]. split; [exact Hsub_t|]. split; [exact He|].
  split; [|split; [exact Hexp_z | exact Hn]].
  unfold seconds. rewrite Hexp_t, Hexp_f.
  rewrite (to_int64_small exp Hexp_hi).
  rewrite bool_decide_eq_true_2; reflexivity.
Qed.

(** An issued token is refused as expired from 24 hours after its issue
    on, whoever presents it. *)
Theorem issued_token_expires s now now' userID :
  Z.abs userID ≤ 2 ^ 53 → 0 ≤ now < 2 ^ 63 →
  now + 24 * Hour ≤ now' →
  ∃ tokenString,
    generateToken s now userID = Ok tokenString ∧
    ValidateToken s now' tokenString
    = Err (ParseFailed (ErrTokenInvalidClaims [ErrTokenExpired])).
Proof.
  intros Hid Hnow Hlate.
  destruct (issued_token_verified s now userID Hid ltac:(lia))
    as (tok & cls & fsub & fexp & Hgen & Hv & Hs & Hst & He & Hsec & Hz & Hn).
  exists tok. split; [exact Hgen|].
  rewrite (ValidateToken_verified s now' tok cls Hv).
  assert (Hpos : 86400 ≤ Unix (now + 24 * Hour)).
  { unfold Unix, Hour, rate.Second.
    pose proof (Z.div_le_mono 86400000000000 (now + 24 * (3600 * 1000000000))
                  1000000000 ltac:(done) ltac:(lia)) as H.
    change (86400000000000 / 1000000000) with 86400 in H. exact H. }
  assert (Hle : Unix (now + 24 * Hour) * rate.Second ≤ now').
  { unfold Unix. pose proof (Z.mul_div_le (now + 24 * Hour) rate.Second ltac:(done)).
    lia. }
  unfold Validate, parseNumericDate. rewrite He, Hn, Hz, Hsec.
  destruct (Z.eqb_spec (Unix (now + 24 * Hour)) 0) as [H0|_]; [lia|].
  destruct (Z.ltb_spec now' (Unix (now + 24 * Hour) * rate.Second)); [lia|].
  reflexivity.
Qed.

Lemma issued_token_expires_witness :
  ∃ tokenString,
    generateToken (mkAuthService "s3cret") 1700000000123456789 42 = Ok tokenString ∧
    ValidateToken (mkAuthService "s3cret") 1700086400123456789 tokenString
    = Err (ParseFailed (ErrTokenInvalidClaims [ErrTokenExpired])).
Proof.
  apply (issued_token_expires (mkAuthService "s3cret") 1700000000123456789
           1700086400123456789 42).
  - vm_compute. discriminate.
  - split; vm_compute; [discriminate | reflexivity].
  - vm_compute. discriminate.
Defined.

Lemma ValidateToken_Ok_inv s now tokenString userID :
  ValidateToken s now tokenString = Ok userID →
  ∃ cls sub,
    verified s tokenString cls ∧
    cls !! "sub" = Some (AFloat sub) ∧ userID = to_int64 (trunc sub) ∧
    (∀ exp, cls !! "exp" = Some (AFloat exp) → is_zero exp = false →
            now < seconds exp * rate.Second) ∧
    (∀ nbf, cls !! "nbf" = Some (AFloat nbf) → is_zero nbf = false →
            seconds nbf * rate.Second ≤ now).
Proof.
  intros Hok.
  destruct (classic_verified s tokenString) as [[cls Hv] | Hno].
  2:{ destruct (ValidateToken_unverified s now _ Hno) as (e & He & _).
      rewrite He in Hok. discriminate. }
  rewrite (ValidateToken_verified s now _ _ Hv) in Hok.
  destruct (Validate now cls) as [|ce errs] eqn:HV; [|discriminate].
  destruct (cls !! "sub") as [[| |f| |]|] eqn:Hs; try discriminate.
  injection Hok as <-. exists cls, f.
  split; [exact Hv|]. split; [exact Hs|]. split; [reflexivity|]. split.
  - intros exp He Hz.
    destruct (Z.lt_ge_cases now (seconds exp * rate.Second)) as [|Hge]; [assumption|].
    assert (ErrTokenExpired ∈ Validate now cls) as Hin.
    { apply Validate_expired. exists exp. split; [exact He|]. split; [exact Hz | lia]. }
    rewrite HV in Hin. apply elem_of_nil in Hin. destruct Hin.
  - intros nbf Hn Hz.
    destruct (Z.lt_ge_cases now (seconds nbf * rate.Second)) as [Hlt|]; [|lia].
    assert (ErrTokenNotValidYet ∈ Validate now cls) as Hin.
    { apply Validate_not_yet. exists nbf. split; [exact Hn|]. split; [exact Hz | lia]. }
    rewrite HV in Hin. apply elem_of_nil in Hin. destruct Hin.
Qed.

(** What acceptance means: [ValidateToken] returns a subject only for a
    verified token (three parts that decode, an algorithm of the HMAC
    family, the tag of the first two parts under the service's secret)
    whose [exp], when set, is after the clock and whose [nbf], when set,
    is not, and the subject is its numeric [sub] cut to an integer. *)
Theorem accepted_token_sound s now tokenString userID :
  ValidateToken s now tokenString = Ok userID →
  ∃ cls sub,
    verified s tokenString cls ∧
    cls !! "sub" = Some (AFloat sub) ∧ userID = to_int64 (trunc sub) ∧
    (∀ exp, cls !! "exp" = Some (AFloat exp) → is_zero exp = false →
            now < seconds exp * rate.Second) ∧
    (∀ nbf, cls !! "nbf" = Some (AFloat nbf) → is_zero nbf = false →
            seconds nbf * rate.Second ≤ now).
Proof. apply ValidateToken_Ok_inv. Qed.

Lemma accepted_token_sound_witness :
  let header := Object {[ "typ" := Str "JWT"; "alg" := Str "HS256" ]} in
  let claims := Object {[ "sub" := Num (of_int 7); "exp" := Num (of_int 2000000000) ]} in
  let tokenString := Compact header claims (Some (Tag SHA256 "s3cret" header claims)) in
  ∃ cls sub,
    verified (mkAuthService "s3cret") tokenString cls ∧
    cls !! "sub" = Some (AFloat sub) ∧ 7 = to_int64 (trunc sub) ∧
    (∀ exp, cls !! "exp" = Some (AFloat exp) → is_zero exp = false →
            1700000000123456789 < seconds exp * rate.Second) ∧
    (∀ nbf, cls !! "nbf" = Some (AFloat nbf) → is_zero nbf = false →
            seconds nbf * rate.Second ≤ 1700000000123456789).
Proof.
  apply (accepted_token_sound (mkAuthService "s3cret") 1700000000123456789).
  vm_compute. reflexivity.
Defined.

(** A token signed under another secret is refused for its signature,
    whatever it claims. *)
Theorem other_secret_rejected s s' now now' userID :
  jwtSecret s ≠ jwtSecret s' →
  Z.abs userID ≤ 2 ^ 53 → - 2 ^ 63 ≤ now < 2 ^ 63 →
  ∃ tokenString,
    generateToken s now userID = Ok tokenString ∧
    ValidateToken s' now' tokenString = Err (ParseFailed ErrTokenSignatureInvalid).
Proof.
  intros Hne Hid Hnow.
  destruct (issued_token_verified s now userID Hid Hnow)
    as (tok & cls & fsub & fexp & Hgen & Hv & _).
  exists tok. split; [exact Hgen|].
  destruct Hv as (header & claims & hdr & alg & h & -> & Hh & Hc & Halg & Hm).
  unfold ValidateToken, Parse. rewrite Hh, Hc, Halg, Hm.
  cbn [keyFunc Method is_hmac Verify].
  rewrite bool_decide_eq_false_2; [reflexivity|].
  intros [= Hk]. apply Hne. exact Hk.
Qed.

Lemma other_secret_rejected_witness :
  ∃ tokenString,
    generateToken (mkAuthService "s3cret") 1700000000123456789 42 = Ok tokenString ∧
    ValidateToken (mkAuthService "guess") 1700000000123456789 tokenString
    = Err (ParseFailed ErrTokenSignatureInvalid).
Proof.
  apply (other_secret_rejected (mkAuthService "s3cret") (mkAuthService "guess")
           1700000000123456789 1700000000123456789 42).
  - vm_compute. discriminate.
  - vm_compute. discriminate.
  - split; vm_compute; [discriminate | reflexivity].
Defined.


(** Beyond [2^53] a float64 is an even integer. *)
Lemma round64_big_even z f :
  2 ^ 53 < Z.abs z → round64 (of_int z) = Some f → Z.even (trunc f) = true.
Proof.
  intros Hz. unfold round64, of_int. cbn [numer denom].
  change (2 ^ 53) with 9007199254740992 in Hz.
  destruct (Z.eqb_spec z 0) as [->|Hne]; [simpl in Hz; lia|].
  set (a := Z.abs z). assert (Ha : 0 < a) by lia.
  rewrite floor_log2_int by exact Ha.
  assert (He : 53 ≤ Z.log2 a).
  { apply Z.log2_le_pow2; [exact Ha|]. change (2 ^ 53) with 9007199254740992. lia. }
  rewrite Z.max_l by lia. set (sh := Z.log2 a - 52). assert (Hsh : 1 ≤ sh) by lia.
  destruct (Z.leb_spec sh 0); [lia|].
  destruct ((0 <=? sh) && _); [discriminate|].
  intros [= <-]. unfold trunc. cbn [mant expo].
  destruct (Z.leb_spec 0 sh); [|lia].
  rewrite Z.even_mul, Z.even_pow by lia. apply orb_true_r.
Qed.

(** Subjects beyond the float64 integers do not survive: a token issued
    for an odd subject of magnitude above [2^53] never validates to that
    subject. *)
Theorem large_odd_subject_lost s now now' userID tokenString :
  2 ^ 53 < Z.abs userID → Z.odd userID = true →
  generateToken s now userID = Ok tokenString →
  ValidateToken s now' tokenString ≠ Ok userID.
Proof.
  intros Hbig Hodd Hgen Hok.
  destruct (ValidateToken_Ok_inv s now' tokenString userID Hok)
    as (cls & sub & Hv & Hs & Hid & _).
  unfold generateToken, SignedString in Hgen. injection Hgen as <-.
  destruct Hv as (header & claims & hdr & alg & h & [= <- <- _] & _ & Hc & _).
  cbn [decode_segment] in Hc.
  rewrite (decode_object_lookup _ _ "sub" Hc), lookup_insert_eq in Hs.
  cbn in Hs. destruct (round64 (of_int userID)) as [f|] eqn:Hf; [|discriminate].
  injection Hs as <-.
  pose proof (round64_big_even userID f Hbig Hf) as Heven.
  assert (Z.even (to_int64 (trunc f)) = true) as Heven'.
  { unfold to_int64. destruct (_ && _); [exact Heven | reflexivity]. }
  rewrite <- Hid in Heven'. rewrite <- Z.negb_odd, Hodd in Heven'. discriminate.
Qed.

Lemma large_odd_subject_lost_witness :
  ValidateToken (mkAuthService "s3cret") 1700000000123456789
    (Compact (Object {[ "typ" := Str "JWT"; "alg" := Str "HS256" ]})
       (Object {[ "sub" := Num (of_int 9007199254740993);
                  "iat" := Num (of_int 1700000000);
                  "exp" := Num (of_int 1700086400) ]})
       (Some (Tag SHA256 "s3cret"
                (Object {[ "typ" := Str "JWT"; "alg" := Str "HS256" ]})
                (Object {[ "sub" := Num (of_int 9007199254740993);
                           "iat" := Num (of_int 1700000000);
                           "exp" := Num (of_int 1700086400) ]}))))
  ≠ Ok 9007199254740993.
Proof.
  apply (large_odd_subject_lost (mkAuthService "s3cret") 1700000000123456789
           1700000000123456789 9007199254740993).
  - vm_compute. reflexivity.
  - reflexivity.
  - vm_compute. reflexivity.
Defined.

End token_more.

Module traffic_facts.
Import rate middleware burst_inv traffic.










(** The decisions for an address depend on the limiter state only
    through the bucket the address stands for. *)
Lemma allow_seq_view ip ts : ∀ st st' lim,
  view ip st lim → view ip st' lim →
  fst (allow_seq ip ts st) = fst (allow_seq ip ts st').
Proof.
  induction ts as [|t ts IH]; intros st st' lim Hv Hv'; [reflexivity|].
  destruct (limiter_facts.allow_view ip t st lim Hv) as (st1 & Ha & Hv1 & _).
  destruct (limiter_facts.allow_view ip t st' lim Hv') as (st1' & Ha' & Hv1' & _).
  cbn [allow_seq]. rewrite Ha, Ha'.
  pose proof (IH st1 st1' _ Hv1 Hv1') as Heq.
  destruct (allow_seq ip ts st1), (allow_seq ip ts st1'). cbn [fst] in *.
  by rewrite Heq.
Qed.

(** A cleanup tick resets every quota: after it each address is served
    as by a limiter that was just created, whatever it had used up. *)
Theorem cleanup_resets_quota ip ts st :
  fst (allow_seq ip ts (cleanup_tick st))
  = fst (allow_seq ip ts (NewRateLimiter (rps (rl st)) (middleware.burst (rl st)))).
Proof.
  apply (allow_seq_view ip ts _ _
           (NewLimiter (rps (rl st)) (middleware.burst (rl st)))).
  - left. split; reflexivity.
  - left. split; reflexivity.
Qed.


Lemma wf_new r b : wf (NewRateLimiter r b).
Proof. split; intros *; unfold lookup; cbn; rewrite lookup_empty; discriminate. Qed.

Lemma wf_cleanup st : wf st → wf (cleanup_tick st).
Proof. intros _. split; intros *; unfold lookup; cbn; rewrite lookup_empty; discriminate. Qed.

Lemma wf_getLimiter ip st :
  wf st → wf (snd (getLimiter ip st)) ∧
          (fst (getLimiter ip st) < length (heap (snd (getLimiter ip st))))%nat ∧
          lookup ip (snd (getLimiter ip st)) = Some (fst (getLimiter ip st)).
Proof.
  intros [Hin Hinj]. unfold getLimiter.
  destruct (lookup ip st) as [p|] eqn:Hl; cbn [fst snd].
  - split; [split; assumption|]. split; [by eapply Hin | assumption].
  - unfold install, lookup in *. cbn [fst snd rl heap limiters]. rewrite length_app.
    cbn [length].
    split; [split|split; [lia | apply lookup_insert_eq]].
    + intros ip' q. unfold lookup. cbn [fst snd rl heap limiters].
      rewrite lookup_insert_Some, length_app. cbn [length].
      intros [[_ <-]|[_ Hq]]; [lia|].
      apply Hin in Hq. lia.
    + intros ip1 ip2 q. unfold lookup. cbn [fst snd rl heap limiters].
      rewrite !lookup_insert_Some.
      intros [[<- <-]|[? H1]] [[<- Hq]|[? H2]]; try reflexivity.
      * apply Hin in H2. lia.
      * apply Hin in H1. lia.
      * by eapply Hinj.
Qed.

Lemma wf_call {A} p (f : Limiter → A * Limiter) dflt st :
  wf st → wf (snd (call p f dflt st)).
Proof.
  intros [Hin Hinj]. unfold call. destruct (heap st !! p) as [lim|]; [|by split].
  destruct (f lim) as [a lim']. cbn. split.
  - intros ip q Hq. cbn [heap]. rewrite length_insert. by eapply Hin.
  - exact Hinj.
Qed.

Lemma wf_allow ip t st : wf st → wf (snd (allow ip t st)).
Proof.
  intros Hwf. unfold allow.
  destruct (wf_getLimiter ip st Hwf) as (Hwf1 & _).
  destruct (getLimiter ip st) as [p st1]. by apply wf_call.
Qed.

(** A request of another address leaves an address's bucket as it is. *)
Lemma view_allow_other ip ip' t st lim :
  wf st → ip ≠ ip' → view ip st lim →
  view ip (snd (allow ip' t st)) lim ∧
  rps (rl (snd (allow ip' t st))) = rps (rl st) ∧
  middleware.burst (rl (snd (allow ip' t st))) = middleware.burst (rl st).
Proof.
  intros Hwf Hne Hv. unfold allow.
  destruct (wf_getLimiter ip' st Hwf) as ([Hin1 Hinj1] & Hlt & Hp').
  assert (Hv1 : view ip (snd (getLimiter ip' st)) lim ∧
                rl (snd (getLimiter ip' st)) = rl (snd (getLimiter ip' st)) ∧
                rps (rl (snd (getLimiter ip' st))) = rps (rl st) ∧
                middleware.burst (rl (snd (getLimiter ip' st)))
                = middleware.burst (rl st)).
  { unfold getLimiter. destruct (lookup ip' st) as [q|] eqn:Hq; cbn [snd].
    - by repeat split.
    - unfold install, view, bucket, lookup in *. cbn [fst snd rl heap limiters rps middleware.burst].
      rewrite lookup_insert_ne by congruence.
      split; [|by repeat split].
      destruct Hv as [[Hn ->]|Hb]; [left; by split|right].
      destruct (limiters (rl st) !! ip) as [pp|] eqn:Hpp; [|discriminate].
      cbn in *. rewrite lookup_app_l; [exact Hb|].
      destruct Hwf as [Hin _]. by apply (Hin ip). }
  destruct (getLimiter ip' st) as [p st1]. cbn [fst snd] in *.
  destruct Hv1 as (Hv1 & _ & Hr1 & Hb1).
  unfold call. destruct (heap st1 !! p) as [lim'|]; [|by repeat split].
  destruct (Allow t lim') as [ok lim'']. cbn [snd rl].
  split; [|by split].
  unfold view, bucket, lookup in *. cbn [rl heap].
  destruct Hv1 as [[Hn ->]|Hb]; [left; by split|right].
  destruct (limiters (rl st1) !! ip) as [pp|] eqn:Hpp; [|discriminate].
  cbn in *. rewrite list_lookup_insert_ne; [exact Hb|].
  intros ->. apply Hne. symmetry. by apply (Hinj1 ip' ip pp).
Qed.

Lemma serve_independent_gen ip reqs : ∀ st st' lim,
  wf st → view ip st lim → view ip st' lim →
  decisions ip reqs (fst (serve reqs st)) = fst (allow_seq ip (times_of ip reqs) st').
Proof.
  induction reqs as [|[ip' t] reqs IH]; intros st st' lim Hwf Hv Hv'; [reflexivity|].
  cbn [serve]. pose proof (wf_allow ip' t st Hwf) as Hwf1.
  destruct (decide (ip' = ip)) as [->|Hne].
  - destruct (limiter_facts.allow_view ip t st lim Hv) as (st1 & Ha & Hv1 & _).
    destruct (limiter_facts.allow_view ip t st' lim Hv') as (st1' & Ha' & Hv1' & _).
    rewrite Ha in Hwf1 |- *. cbn [snd] in Hwf1.
    specialize (IH st1 st1' _ Hwf1 Hv1 Hv1').
    destruct (serve reqs st1) as [bs st2]. cbn [fst decisions] in *.
    rewrite bool_decide_eq_true_2 by reflexivity.
    unfold times_of in *. rewrite filter_cons_True by reflexivity.
    cbn [fmap list_fmap snd allow_seq]. rewrite Ha'.
    destruct (allow_seq ip _ st1') as [bs' st2']. cbn [fst] in *. by rewrite IH.
  - destruct (view_allow_other ip ip' t st lim Hwf ltac:(congruence) Hv) as (Hv1 & _).
    destruct (allow ip' t st) as [b st1]. cbn [snd] in *.
    specialize (IH st1 st' _ Hwf1 Hv1 Hv').
    destruct (serve reqs st1) as [bs st2]. cbn [fst decisions] in *.
    rewrite bool_decide_eq_false_2 by assumption.
    unfold times_of in *. rewrite filter_cons_False by (cbn; congruence).
    exact IH.
Qed.

(** Addresses are limited independently: in any mix of requests the
    decisions for one address are those it would get if its requests
    were the only ones. *)
Theorem serve_independent ip reqs st :
  wf st →
  decisions ip reqs (fst (serve reqs st)) = fst (allow_seq ip (times_of ip reqs) st).
Proof.
  intros Hwf.
  destruct (lookup ip st) as [p|] eqn:Hl.
  - destruct Hwf as [Hin Hinj]. pose proof (Hin _ _ Hl) as Hlt.
    destruct (lookup_lt_is_Some_2 _ _ Hlt) as [lim Hlim].
    apply (serve_independent_gen ip reqs st st lim); [by split| |];
      right; unfold bucket; rewrite Hl; exact Hlim.
  - apply (serve_independent_gen ip reqs st st
             (NewLimiter (rps (rl st)) (middleware.burst (rl st))));
      [assumption| |]; left; by split.
Qed.

Lemma serve_independent_witness :
  let reqs := [("203.0.113.7", 0); ("198.51.100.2", 1); ("203.0.113.7", 2);
               ("198.51.100.2", 3); ("203.0.113.7", 4); ("198.51.100.2", 5)] in
  decisions "203.0.113.7" reqs (fst (serve reqs (NewRateLimiter 10 2)))
  = fst (allow_seq "203.0.113.7" (times_of "203.0.113.7" reqs) (NewRateLimiter 10 2)).
Proof.
  apply (serve_independent "203.0.113.7").
  split; intros *; unfold lookup; cbn; rewrite lookup_empty; discriminate.
Defined.

End traffic_facts.

Module startup_more.
Import errors database backoff.

Section loop.
Variable ping : nat → Z → Z * option error.
Variable timer_wins : nat → bool.
Variable deadline : Z.

Ltac loop_step n i t err mr :=
  destruct (startup_facts.loop_cases ping timer_wins deadline n i t err mr)
    as [t1 Hping | t1 e w fin Hping Hfin | t1 e w Hping Hlt Hfire].

(** When every probe fails and every wait is over before the deadline,
    the loop returns the last probe's error, and only after the wait
    that follows the last probe. *)
Lemma loop_exhausted n : ∀ i t err mr p ep,
  let run := retry_loop ping timer_wins deadline n i t err mr in
  length (probes run) = n → last (probes run) = Some p → result p = Some ep →
  returned p + rate.Second * Z.of_nat (i + n) < deadline →
  outcome run = Some ep ∧
  finished_at run = returned p + rate.Second * Z.of_nat (i + n).
Proof.
  induction n as [|n IH]; intros i t err mr p ep; cbv zeta; [discriminate 2|].
  loop_step n i t err mr; cbn [probes outcome add_probe finished_at length].
  - intros _ [= <-]. discriminate.
  - intros Hlen [= <-]. cbn [returned]. intros _ Hd.
    cbn in Hlen. assert (n = 0)%nat as -> by lia. exfalso.
    unfold rate.Second in *. lia.
  - intros Hlen Hlast Hres Hd. destruct n as [|n].
    + cbn in Hlast |- *. injection Hlast as <-. cbn in Hres, Hd |- *.
      split; [congruence|]. unfold rate.Second. lia.
    + rewrite last_cons in Hlast.
      destruct (last (probes (retry_loop ping timer_wins deadline (S n) (S i)
                  (t1 + rate.Second * (Z.of_nat i + 1)) (Some e) mr))) as [q|] eqn:Hq.
      * injection Hlast as ->.
        destruct (IH (S i) (t1 + rate.Second * (Z.of_nat i + 1)) (Some e) mr p ep)
          as [Ho Hf]; [lia | exact Hq | exact Hres | |].
        { replace (S i + S n)%nat with (i + S (S n))%nat by lia. exact Hd. }
        split; [exact Ho|]. rewrite Hf. unfold rate.Second. lia.
      * apply last_None in Hq. rewrite Hq in Hlen. cbn in Hlen. lia.
Qed.

End loop.



(** When all [maxRetries] probes fail and the context has time left,
    [pingWithRetry] returns the last probe's error, but only after one
    more wait of [maxRetries] seconds that no probe follows. *)
Theorem retries_exhausted_after_last_wait ping timer_wins deadline t mr p e :
  let run := pingWithRetry ping timer_wins deadline t mr in
  0 < mr →
  Z.of_nat (length (probes run)) = mr → last (probes run) = Some p →
  result p = Some e → returned p + mr * rate.Second < deadline →
  outcome run = Some e ∧ finished_at run = returned p + mr * rate.Second.
Proof.
  cbv zeta. unfold pingWithRetry. intros Hmr Hlen Hlast Hres Hd.
  destruct (loop_exhausted ping timer_wins deadline (Z.to_nat mr) 0 t None mr p e)
    as [Ho Hf]; [lia | exact Hlast | exact Hres | |].
  - cbn [Nat.add]. rewrite Z2Nat.id by lia. unfold rate.Second in *. lia.
  - split; [exact Ho|]. rewrite Hf. cbn [Nat.add]. rewrite Z2Nat.id by lia.
    unfold rate.Second. lia.
Qed.

Lemma retries_exhausted_after_last_wait_witness :
  let ping := λ (_ : nat) (t : Z), (t + 20000000, Some (Foreign "connection refused")) in
  let run := pingWithRetry ping (λ _, true) 10000000000 0 2 in
  outcome run = Some (Foreign "connection refused") ∧
  finished_at run = 1040000000 + 2 * rate.Second.
Proof.
  cbv zeta.
  apply (retries_exhausted_after_last_wait
           (λ (_ : nat) (t : Z), (t + 20000000, Some (Foreign "connection refused")))
           (λ _, true) 10000000000 0 2
           (mkProbe 1020000000 1040000000 (Some (Foreign "connection refused")))).
  - lia.
  - reflexivity.
  - reflexivity.
  - reflexivity.
  - vm_compute. reflexivity.
Defined.

(** With no retries allowed [pingWithRetry] never touches the storage
    and reports success. *)
Theorem no_retries_no_probe ping timer_wins deadline t mr :
  mr ≤ 0 →
  let run := pingWithRetry ping timer_wins deadline t mr in
  probes run = [] ∧ outcome run = None ∧ finished_at run = t ∧ warnings run = [].
Proof.
  intros Hmr. cbv zeta. unfold pingWithRetry.
  replace (Z.to_nat mr) with 0%nat by lia. by repeat split.
Qed.

Lemma no_retries_no_probe_witness :
  let run := pingWithRetry (λ _ t, (t, Some (Foreign "connection refused")))
               (λ _, true) 10 0 0 in
  probes run = [] ∧ outcome run = None ∧ finished_at run = 0 ∧ warnings run = [].
Proof.
  apply (no_retries_no_probe (λ _ t, (t, Some (Foreign "connection refused")))
           (λ _, true) 10 0 0).
  lia.
Defined.

End startup_more.

Module token_classes.
Import json jwt services.



End token_classes.

Module auth_facts.
Import errors http models repositories authservice authhandler.
Import jwt (result, Ok, Err).




(** A login for an address that is not registered and a login with the
    wrong password get the same response and the same log record: 401
    with [invalid credentials] twice.  They differ in the work done:
    the password is only compared when the address exists. *)
Theorem login_failures_look_alike s db1 db2 bc1 bc2 now validate_login req r w user :
  validate_login req = None →
  select_by_email db1 (login_email req) = Err (Sentinel SqlErrNoRows) →
  select_by_email db2 (login_email req) = Ok user →
  CompareHashAndPassword bc2 (PasswordHash user) (login_password req) ≠ None →
  let unknown := Login s db1 bc1 now validate_login (Ok req) r w in
  let wrong := Login s db2 bc2 now validate_login (Ok req) r w in
  fst unknown = fst wrong ∧
  fst (fst unknown)
  = respondWithJSON w StatusUnauthorized
      (ErrorPayload (mkErrorResponse "invalid credentials" "invalid credentials")) ∧
  snd unknown = [OpSelect (login_email req)] ∧
  snd wrong = [OpSelect (login_email req);
               OpCompare (PasswordHash user) (login_password req)].
Proof.
  intros Hv H1 H2 Hc. cbv zeta. unfold Login, authservice.Login, GetByEmail.
  rewrite Hv, H1, H2. cbn [is_sentinel].
  rewrite !bool_decide_eq_true_2 by reflexivity.
  destruct (CompareHashAndPassword bc2 _ _) as [e|]; [|congruence].
  cbn. repeat split; reflexivity.
Qed.

Lemma login_failures_look_alike_witness :
  let s := services.mkAuthService "s3cret" in
  let user := mkUser 7 "ann@example.org" "$2a$10$hash" 0 0 in
  let db1 := mkStorage (λ _, Err (Sentinel SqlErrNoRows)) (λ _ _, Ok (1, 0, 0)) in
  let db2 := mkStorage (λ _, Ok user) (λ _ _, Ok (1, 0, 0)) in
  let bc := mkBcrypt (λ _, Ok "$2a$10$hash") (λ _ _, Some (Foreign "mismatch")) in
  let req := mkLoginRequest "ann@example.org" "guess" in
  let r := mkRequest "POST" "/auth/login" ∅ "192.0.2.4:5113" None in
  let unknown := Login s db1 bc 0 (λ _, None) (Ok req) r (fresh ∅) in
  let wrong := Login s db2 bc 0 (λ _, None) (Ok req) r (fresh ∅) in
  fst unknown = fst wrong ∧
  fst (fst unknown)
  = respondWithJSON (fresh ∅) StatusUnauthorized
      (ErrorPayload (mkErrorResponse "invalid credentials" "invalid credentials")) ∧
  snd unknown = [OpSelect (login_email req)] ∧
  snd wrong = [OpSelect (login_email req);
               OpCompare (PasswordHash user) (login_password req)].
Proof.
  cbv zeta.
  apply (login_failures_look_alike (services.mkAuthService "s3cret")
           (mkStorage (λ _, Err (Sentinel SqlErrNoRows)) (λ _ _, Ok (1, 0, 0)))
           (mkStorage (λ _, Ok (mkUser 7 "ann@example.org" "$2a$10$hash" 0 0))
              (λ _ _, Ok (1, 0, 0)))
           (mkBcrypt (λ _, Ok "$2a$10$hash") (λ _ _, Some (Foreign "mismatch")))
           (mkBcrypt (λ _, Ok "$2a$10$hash") (λ _ _, Some (Foreign "mismatch")))
           0 (λ _, None) (mkLoginRequest "ann@example.org" "guess")).
  - reflexivity.
  - reflexivity.
  - reflexivity.
  - discriminate.
Defined.


Lemma respondWithJSON_status w code payload :
  rw_status w = None → rw_status (respondWithJSON w code payload) = Some code.
Proof.
  intros Hw. unfold respondWithJSON, Write, WriteHeader, SetHeader. cbn.
  rewrite Hw. cbn. reflexivity.
Qed.

Ltac settle Hst :=
  repeat (cbn [is_sentinel negb fst];
          first [ rewrite bool_decide_eq_true_2 by reflexivity
                | rewrite bool_decide_eq_false_2 by discriminate ]);
  cbn [is_sentinel negb fst];
  unfold respondWithError; cbn [fst]; rewrite Hst.

Ltac refute :=
  intros (? & [= <-] & ? & [(? & ?)|(? & ? & ? & ? & ? & ?)]); congruence.

(** Registering an address that is already there answers 409 and does
    nothing else: the password is not hashed and nothing is inserted. *)
Theorem register_existing_email_writes_nothing s db bc now validate_register
  req r w user :
  validate_register req = None →
  select_by_email db (register_email req) = Ok user →
  let reg := Register s db bc now validate_register (Ok req) r w in
  fst (fst reg)
  = respondWithJSON w StatusConflict
      (ErrorPayload (mkErrorResponse "user already exists" "user already exists")) ∧
  snd reg = [OpSelect (register_email req)].
Proof.
  intros Hv Hsel. cbv zeta. unfold Register, authservice.Register, GetByEmail.
  rewrite Hv, Hsel. cbn. split; reflexivity.
Qed.

Lemma register_existing_email_writes_nothing_witness :
  let s := services.mkAuthService "s3cret" in
  let user := mkUser 7 "ann@example.org" "$2a$10$hash" 0 0 in
  let db := mkStorage (λ _, Ok user) (λ _ _, Ok (8, 0, 0)) in
  let bc := mkBcrypt (λ _, Ok "$2a$10$other") (λ _ _, None) in
  let req := mkRegisterRequest "ann@example.org" "secret1" in
  let r := mkRequest "POST" "/auth/register" ∅ "192.0.2.4:5113" None in
  let reg := Register s db bc 0 (λ _, None) (Ok req) r (fresh ∅) in
  fst (fst reg)
  = respondWithJSON (fresh ∅) StatusConflict
      (ErrorPayload (mkErrorResponse "user already exists" "user already exists")) ∧
  snd reg = [OpSelect (register_email req)].
Proof.
  cbv zeta.
  apply (register_existing_email_writes_nothing (services.mkAuthService "s3cret")
           (mkStorage (λ _, Ok (mkUser 7 "ann@example.org" "$2a$10$hash" 0 0))
              (λ _ _, Ok (8, 0, 0)))
           (mkBcrypt (λ _, Ok "$2a$10$other") (λ _ _, None)) 0 (λ _, None)
           (mkRegisterRequest "ann@example.org" "secret1") _ _
           (mkUser 7 "ann@example.org" "$2a$10$hash" 0 0)).
  - reflexivity.
  - reflexivity.
Defined.

(** [Register] answers 409 in two cases only: the address is found, or
    it is not found, the password hashes, and the insert fails with an
    error whose text is, to the letter, the duplicate key message
    [Create] compares with. *)
Theorem register_conflict_iff s db bc now validate_register body r w :
  rw_status w = None →
  rw_status (fst (fst (Register s db bc now validate_register body r w)))
  = Some StatusConflict
  ↔ ∃ req, body = Ok req ∧ validate_register req = None ∧
      ((∃ user, select_by_email db (register_email req) = Ok user) ∨
       (select_by_email db (register_email req) = Err (Sentinel SqlErrNoRows) ∧
        ∃ hash e, GenerateFromPassword bc (register_password req) = Ok hash ∧
                  insert_user db (register_email req) hash = Err e ∧
                  Error e = duplicate_key_text)).
Proof.
  intros Hw.
  pose proof (λ code p, respondWithJSON_status w code p Hw) as Hst.
  unfold Register.
  destruct body as [err|req].
  { settle Hst. split; [discriminate|]. intros (? & [=] & _). }
  destruct (validate_register req) as [err|] eqn:Hv.
  { settle Hst. split; [discriminate | refute]. }
  unfold authservice.Register, GetByEmail, Create.
  destruct (select_by_email db (register_email req)) as [e|user] eqn:Hsel.
  2:{ settle Hst. split; [|reflexivity]. intros _. exists req.
      split; [reflexivity|]. split; [exact Hv|]. left. by exists user. }
  destruct e as [sn|pfx inner|text]; cbn [is_sentinel].
  2,3: settle Hst; (split; [discriminate | refute]).
  destruct (decide (sn = SqlErrNoRows)) as [->|Hne].
  2:{ rewrite bool_decide_eq_false_2 by exact Hne. settle Hst.
      split; [discriminate | refute]. }
  rewrite bool_decide_eq_true_2 by reflexivity. cbn [is_sentinel negb].
  rewrite bool_decide_eq_true_2 by reflexivity. cbn [negb].
  destruct (GenerateFromPassword bc (register_password req)) as [e|hash] eqn:Hh.
  { settle Hst. split; [discriminate | refute]. }
  cbn [Email PasswordHash].
  destruct (insert_user db (register_email req) hash) as [e|[[id created] updated]] eqn:Hi.
  - destruct (decide (Error e = duplicate_key_text)) as [Hd|Hd].
    + rewrite bool_decide_eq_true_2 by exact Hd. settle Hst.
      split; [|reflexivity]. intros _. exists req.
      split; [reflexivity|]. split; [exact Hv|]. right.
      split; [exact Hsel|]. by exists hash, e.
    + rewrite bool_decide_eq_false_2 by exact Hd. settle Hst.
      split; [discriminate | refute].
  - cbn [ID]. destruct (services.generateToken s now id) as [e|tok].
    + settle Hst. split; [discriminate | refute].
    + cbn [fst]. rewrite Hst. split; [discriminate | refute].
Qed.

Lemma register_conflict_iff_witness :
  let s := services.mkAuthService "s3cret" in
  let db := mkStorage (λ _, Err (Sentinel SqlErrNoRows))
              (λ _ _, Err (Foreign duplicate_key_text)) in
  let bc := mkBcrypt (λ _, Ok "$2a$10$hash") (λ _ _, None) in
  let req := mkRegisterRequest "ann@example.org" "secret1" in
  let r := mkRequest "POST" "/auth/register" ∅ "192.0.2.4:5113" None in
  rw_status (fst (fst (Register s db bc 0 (λ _, None) (Ok req) r (fresh ∅))))
  = Some StatusConflict.
Proof.
  cbv zeta.
  apply (register_conflict_iff (services.mkAuthService "s3cret")
           (mkStorage (λ _, Err (Sentinel SqlErrNoRows))
              (λ _ _, Err (Foreign duplicate_key_text)))
           (mkBcrypt (λ _, Ok "$2a$10$hash") (λ _ _, None)) 0 (λ _, None)
           (Ok (mkRegisterRequest "ann@example.org" "secret1"))
           (mkRequest "POST" "/auth/register" ∅ "192.0.2.4:5113" None) (fresh ∅)).
  - reflexivity.
  - exists (mkRegisterRequest "ann@example.org" "secret1").
    split; [reflexivity|]. split; [reflexivity|]. right.
    split; [reflexivity|]. exists "$2a$10$hash", (Foreign duplicate_key_text).
    split; [reflexivity|]. split; reflexivity.
Defined.

(** When the insert fails in any other way, the client gets 500 and the
    driver's text, behind the prefix of [Create] and the same prefix
    again from [Register]; a duplicate reported in other words than the
    expected ones is such a failure. *)
Theorem register_insert_failure_text s db bc now validate_register req r w hash e :
  validate_register req = None →
  select_by_email db (register_email req) = Err (Sentinel SqlErrNoRows) →
  GenerateFromPassword bc (register_password req) = Ok hash →
  insert_user db (register_email req) hash = Err e →
  Error e ≠ duplicate_key_text →
  fst (fst (Register s db bc now validate_register (Ok req) r w))
  = respondWithJSON w StatusInternalServerError
      (ErrorPayload (mkErrorResponse "failed to register user"
         ("failed to create user: failed to create user: " +:+ Error e))).
Proof.
  intros Hv Hsel Hh Hi Hd. unfold Register, authservice.Register, GetByEmail, Create.
  rewrite Hv, Hsel. cbn [is_sentinel].
  rewrite bool_decide_eq_true_2 by reflexivity. cbn [is_sentinel negb].
  rewrite bool_decide_eq_true_2 by reflexivity. cbn [negb].
  rewrite Hh. cbn [Email PasswordHash]. rewrite Hi.
  rewrite bool_decide_eq_false_2 by exact Hd. cbn [is_sentinel fst respondWithError].
  reflexivity.
Qed.

Lemma register_insert_failure_text_witness :
  let s := services.mkAuthService "s3cret" in
  let e := Foreign "ERROR: duplicate key value violates unique constraint (SQLSTATE 23505)" in
  let db := mkStorage (λ _, Err (Sentinel SqlErrNoRows)) (λ _ _, Err e) in
  let bc := mkBcrypt (λ _, Ok "$2a$10$hash") (λ _ _, None) in
  let req := mkRegisterRequest "ann@example.org" "secret1" in
  let r := mkRequest "POST" "/auth/register" ∅ "192.0.2.4:5113" None in
  fst (fst (Register s db bc 0 (λ _, None) (Ok req) r (fresh ∅)))
  = respondWithJSON (fresh ∅) StatusInternalServerError
      (ErrorPayload (mkErrorResponse "failed to register user"
         ("failed to create user: failed to create user: " +:+ Error e))).
Proof.
  cbv zeta.
  apply (register_insert_failure_text (services.mkAuthService "s3cret")
           (mkStorage (λ _, Err (Sentinel SqlErrNoRows))
              (λ _ _, Err (Foreign
                 "ERROR: duplicate key value violates unique constraint (SQLSTATE 23505)")))
           (mkBcrypt (λ _, Ok "$2a$10$hash") (λ _ _, None)) 0 (λ _, None)
           (mkRegisterRequest "ann@example.org" "secret1") _ _ "$2a$10$hash").
  - reflexivity.
  - reflexivity.
  - reflexivity.
  - reflexivity.
  - vm_compute. discriminate.
Defined.





End auth_facts.

Module authmw_facts.
Import http authmw.
Import jwt (result, Ok, Err).

Lemma Split_nonempty s sep : Split s sep ≠ [].
Proof.
  destruct s as [|c s]; cbn; [discriminate|].
  destruct (bool_decide (c = sep)); [discriminate|].
  destruct (Split s sep); discriminate.
Qed.

(** A string without the separator is one piece. *)
Lemma Split_one s sep : contains s sep = false → Split s sep = [s].
Proof.
  induction s as [|c s IH]; cbn; [reflexivity|].
  destruct (bool_decide (c = sep)); [discriminate|]. cbn. intros H.
  rewrite (IH H). reflexivity.
Qed.

Lemma Split_one_inv s sep a : Split s sep = [a] → s = a ∧ contains a sep = false.
Proof.
  revert a. induction s as [|c s IH]; intros a; cbn.
  - intros [= <-]. split; reflexivity.
  - destruct (bool_decide (c = sep)) eqn:Hc.
    + intros [= _ H]. by destruct (Split_nonempty s sep).
    + destruct (Split s sep) as [|h t] eqn:Hs; [by destruct (Split_nonempty s sep)|].
      intros [= <- ->]. destruct (IH h eq_refl) as [-> Hh].
      split; [reflexivity|]. cbn. rewrite Hc, Hh. reflexivity.
Qed.

(** Two pieces are what is left and right of the one separator. *)
Lemma Split_two_inv s sep a b :
  Split s sep = [a; b] →
  s = a +:+ String sep b ∧ contains a sep = false ∧ contains b sep = false.
Proof.
  revert a. induction s as [|c s IH]; intros a; cbn; [discriminate|].
  destruct (bool_decide_reflect (c = sep)) as [->|Hc].
  - intros [= <- H]. destruct (Split_one_inv _ _ _ H) as [-> Hb].
    split; [reflexivity|]. split; [reflexivity | exact Hb].
  - destruct (Split s sep) as [|h t] eqn:Hs; [discriminate|].
    intros [= <- ->]. destruct (IH h eq_refl) as (-> & Ha & Hb).
    split; [reflexivity|]. split; [|exact Hb]. cbn.
    rewrite bool_decide_eq_false_2 by exact Hc. exact Ha.
Qed.

Lemma Split_two a b sep :
  contains a sep = false → contains b sep = false →
  Split (a +:+ String sep b) sep = [a; b].
Proof.
  intros Ha Hb. induction a as [|c a IH].
  - change (Split (String sep b) sep = [EmptyString; b]). cbn [Split].
    rewrite bool_decide_eq_true_2 by reflexivity. by rewrite Split_one.
  - change (Split (String c (a +:+ String sep b)) sep = [String c a; b]).
    cbn [Split]. cbn [contains] in Ha.
    destruct (bool_decide (c = sep)); [discriminate|].
    cbn [orb] in Ha. by rewrite (IH Ha).
Qed.

(** What [AuthMiddleware] lets through: the wrapped handler runs exactly for a
    header that is the word Bearer, one space and a token without
    spaces which validates, and it is handed the token's subject; in
    every other case the answer is 401 with one of three fixed reasons
    and the wrapped handler does not run. *)
Theorem AuthMiddleware_gate {payload} s now read_token
  (next : Z → Request → ResponseWriter payload → ResponseWriter payload) r w :
  (∀ token userID,
     Get (ReqHeader r) "Authorization" = "Bearer " +:+ token →
     contains token " " = false →
     services.ValidateToken s now (read_token token) = Ok userID →
     AuthMiddleware s now read_token next r w = next userID r w) ∧
  (¬ (∃ token userID,
        Get (ReqHeader r) "Authorization" = "Bearer " +:+ token ∧
        contains token " " = false ∧
        services.ValidateToken s now (read_token token) = Ok userID) →
   ∃ message,
     message ∈ ["missing authorization header";
                "invalid authorization header format";
                "invalid or expired token"] ∧
     AuthMiddleware s now read_token next r w
     = respondWithError w authhandler.StatusUnauthorized message).
Proof.
  split.
  - intros token userID Hh Hc Hv. unfold AuthMiddleware. rewrite Hh.
    rewrite bool_decide_eq_false_2 by discriminate.
    change ("Bearer " +:+ token) with ("Bearer" +:+ String " " token).
    rewrite (Split_two "Bearer" token " " eq_refl Hc). cbn [length nth Nat.eqb negb orb].
    rewrite bool_decide_eq_true_2 by reflexivity. cbn [negb]. rewrite Hv. reflexivity.
  - intros Hno. unfold AuthMiddleware.
    destruct (bool_decide (Get (ReqHeader r) "Authorization" = "")).
    { eexists. split; [|reflexivity]. set_solver. }
    destruct (Split (Get (ReqHeader r) "Authorization") " ")
      as [|p0 [|p1 [|p2 rest]]] eqn:Hs; cbn [length nth Nat.eqb negb orb];
      try (eexists; split; [|reflexivity]; set_solver).
    destruct (bool_decide_reflect (p0 = "Bearer")) as [->|Hp]; cbn [negb].
    2:{ eexists. split; [|reflexivity]. set_solver. }
    destruct (services.ValidateToken s now (read_token p1)) as [e|userID] eqn:Hv.
    { eexists. split; [|reflexivity]. set_solver. }
    exfalso. apply Hno. exists p1, userID.
    destruct (Split_two_inv _ _ _ _ Hs) as (Hh & _ & Hc).
    split; [exact Hh|]. split; [exact Hc | exact Hv].
Qed.



End authmw_facts.

Module config_facts.
Import errors config.
Import jwt (result, Ok, Err).

Lemma getEnv_nonempty env key d : d ≠ "" → getEnv env key d ≠ "".
Proof.
  intros Hd. unfold getEnv.
  destruct (bool_decide_reflect (Getenv env key ≠ "")); assumption.
Qed.

Lemma getEnv_empty_default env key : getEnv env key "" = Getenv env key.
Proof.
  unfold getEnv. destruct (bool_decide_reflect (Getenv env key ≠ "")) as [|H];
    [reflexivity|]. destruct (decide (Getenv env key = "")); [done|contradiction].
Qed.

(** [Load] fails in two cases only, the password of the database or the
    signing secret being unset or empty, the password being reported
    first; the check of the server port can never fail, since an empty
    port has been replaced by 8080 before. *)
Theorem Load_error_cases env Atoi e :
  Load env Atoi = Err e
  ↔ (Getenv env "DB_PASSWORD" = "" ∧ e = Foreign "DB_PASSWORD is required") ∨
    (Getenv env "DB_PASSWORD" ≠ "" ∧ Getenv env "JWT_SECRET" = "" ∧
     e = Foreign "JWT_SECRET is required").
Proof.
  unfold Load, Validate. cbn [Database JWT Server Password Secret ServerPort].
  rewrite !getEnv_empty_default.
  destruct (bool_decide_reflect (Getenv env "DB_PASSWORD" = "")) as [Hp|Hp].
  { split; [intros [= <-]; left; by split|].
    intros [[_ ->]|[? _]]; [reflexivity | contradiction]. }
  destruct (bool_decide_reflect (Getenv env "JWT_SECRET" = "")) as [Hs|Hs].
  { split; [intros [= <-]; right; by repeat split|].
    intros [[? _]|(_ & _ & ->)]; [contradiction | reflexivity]. }
  rewrite bool_decide_eq_false_2 by (apply getEnv_nonempty; discriminate).
  split; [discriminate|]. intros [[? _]|(_ & ? & _)]; contradiction.
Qed.

(** A configuration that loads has no empty text setting: the two
    required ones are the environment's, the others fall back to their
    defaults when unset or empty. *)
Theorem Load_settings_nonempty env Atoi cfg :
  Load env Atoi = Ok cfg →
  Password (Database cfg) = Getenv env "DB_PASSWORD" ∧
  Secret (JWT cfg) = Getenv env "JWT_SECRET" ∧
  Forall (λ v, v ≠ "")
    [ServerPort (Server cfg); Host (Database cfg); Port (Database cfg);
     User (Database cfg); Password (Database cfg); Name (Database cfg);
     SSLMode (Database cfg); Secret (JWT cfg); LogLevel (Logger cfg); Env cfg].
Proof.
  unfold Load, Validate. cbn [Database JWT Server Password Secret ServerPort].
  rewrite !getEnv_empty_default.
  destruct (bool_decide_reflect (Getenv env "DB_PASSWORD" = "")) as [Hp|Hp];
    [discriminate|].
  destruct (bool_decide_reflect (Getenv env "JWT_SECRET" = "")) as [Hs|Hs];
    [discriminate|].
  destruct (bool_decide (getEnv env "SERVER_PORT" "8080" = "")); [discriminate|].
  intros [= <-].
  cbn [Database JWT Server Logger Password Secret ServerPort Host Port User Name
       SSLMode LogLevel Env].
  split; [reflexivity|]. split; [reflexivity|].
  repeat (constructor; [first [ assumption | apply getEnv_nonempty; discriminate ] |]).
  constructor.
Qed.

Lemma Load_settings_nonempty_witness :
  let env : gmap string string :=
    {[ "DB_PASSWORD" := "pw"; "JWT_SECRET" := "s3cret"; "DB_HOST" := "" ]} in
  let cfg :=
    mkConfig (mkServerConfig "8080")
      (mkDatabaseConfig "localhost" "5432" "app" "pw" "appdb" "disable")
      (mkJWTConfig "s3cret") (mkRateLimitConfig 10 20) (mkLoggerConfig "info")
      "development" in
  Password (Database cfg) = Getenv env "DB_PASSWORD" ∧
  Secret (JWT cfg) = Getenv env "JWT_SECRET" ∧
  Forall (λ v, v ≠ "")
    [ServerPort (Server cfg); Host (Database cfg); Port (Database cfg);
     User (Database cfg); Password (Database cfg); Name (Database cfg);
     SSLMode (Database cfg); Secret (JWT cfg); LogLevel (Logger cfg); Env cfg].
Proof.
  cbv zeta.
  apply (Load_settings_nonempty
           {[ "DB_PASSWORD" := "pw"; "JWT_SECRET" := "s3cret"; "DB_HOST" := "" ]}
           (λ _, None)).
  vm_compute. reflexivity.
Defined.

End config_facts.

Module transaction_facts.
Import errors transaction.

(** Once the transaction has begun, the callback runs and exactly one of
    commit and rollback follows it: commit when the callback returns no
    error, rollback when it returns one or panics.  Success is reported
    only after a commit that succeeded; the callback's error comes back
    as it is, also when the rollback fails; a panic goes on. *)
Theorem WithTransaction_commit_or_rollback begin fn rollback commit :
  let '(outcome, ops, _) := WithTransaction begin fn rollback commit in
  (begin ≠ None → ops = [OpBegin]) ∧
  (begin = None →
     (fn = Returns None ∧ ops = [OpBegin; OpFn; OpCommit]) ∨
     (fn ≠ Returns None ∧ ops = [OpBegin; OpFn; OpRollback])) ∧
  (outcome = Returned None ↔ begin = None ∧ fn = Returns None ∧ commit = None) ∧
  (∀ err, begin = None → fn = Returns (Some err) → outcome = Returned (Some err)) ∧
  (∀ p, begin = None → fn = Panics p → outcome = Panicked p).
Proof.
  destruct begin as [e|], fn as [[e'|]|p], commit as [e''|]; cbn;
    repeat split; try congruence; try discriminate;
    try (intros _; (left + right); split; congruence);
    try (intros (? & ? & ?); congruence).
Qed.

End transaction_facts.

Module denial_facts.
Import http clientip rate middleware burst_inv.







End denial_facts.

Module logmw_facts.
Import http logmw.

Section wrapper.
Context {payload : Type}.
Variable size : chunk payload → Z.

Lemma default_last_cons {A} (d x : A) l :
  default d (last (x :: l)) = default x (last l).
Proof. rewrite last_cons. by destruct (last l). Qed.

Lemma serve_statusCode ops : ∀ rw : responseWriter payload,
  statusCode (serve size ops rw) = default (statusCode rw) (last (codes ops)).
Proof.
  induction ops as [|op ops IH]; intros rw; [reflexivity|].
  unfold serve in *. cbn [foldl]. rewrite IH.
  destruct op as [k v|code|c].
  - change (codes (OpSetHeader k v :: ops)) with (codes ops). reflexivity.
  - change (codes (OpWriteHeader code :: ops)) with (code :: codes ops).
    cbn [perform statusCode rw_WriteHeader].
    symmetry. apply default_last_cons.
  - change (codes (OpWrite c :: ops)) with (codes ops). reflexivity.
Qed.

Lemma serve_sent ops : ∀ rw : responseWriter payload,
  rw_status (ResponseWriter_ (serve size ops rw))
  = match rw_status (ResponseWriter_ rw) with
    | Some code => Some code
    | None => wire_status ops
    end.
Proof.
  induction ops as [|op ops IH]; intros rw.
  - cbn. by destruct (rw_status _).
  - unfold serve in *. cbn [foldl]. rewrite IH.
    destruct op as [k v|code|c]; cbn [perform wire_status];
      cbn [rw_WriteHeader rw_Write ResponseWriter_ SetHeader rw_status];
      unfold Write, WriteHeader;
      destruct (rw_status (ResponseWriter_ rw)) eqn:E;
      cbn [rw_status]; rewrite ?E; reflexivity.
Qed.

End wrapper.

(** The status in the request log is the code of the handler's last
    [WriteHeader] call, 200 when there is none, whereas the client is
    sent the first status written.  So the log shows the status the
    client got when the handler calls [WriteHeader] once and before any
    [Write], or writes without calling it; and it shows another one
    when a later [WriteHeader] call, which the connection ignores,
    passes a different code. *)
Theorem logged_status_is_last_code {payload} (size : chunk payload → Z)
  requestID query start finish next r (w : ResponseWriter payload) :
  rw_status w = None →
  let r' := mkRequest (Method r) (Path r) (ReqHeader r) (RemoteAddr r)
              (Some requestID) in
  let res := LoggerMiddleware size requestID query start finish next r w in
  ("status", duration.itoa (default StatusOK (last (codes (next r')))))
  ∈ logger.fields (snd res) ∧
  rw_status (fst res) = wire_status (next r') ∧
  (∀ pre post code,
     next r' = (pre ++ OpWriteHeader code :: post)%list →
     wire_status pre = None → codes post = [] →
     rw_status (fst res) = Some code ∧
     ("status", duration.itoa code) ∈ logger.fields (snd res)) ∧
  (∀ pre mid post code code',
     next r' = (pre ++ OpWriteHeader code :: mid ++ OpWriteHeader code' :: post)%list →
     wire_status pre = None → codes post = [] →
     rw_status (fst res) = Some code ∧
     ("status", duration.itoa code') ∈ logger.fields (snd res)).
Proof.
  intros Hw. cbv zeta. unfold LoggerMiddleware. cbn [fst snd].
  set (r' := mkRequest _ _ _ _ _).
  assert (Hin : ("status", duration.itoa (default StatusOK (last (codes (next r')))))
                ∈ logger.fields
                    (logger.log (logger.FromContext (RequestID r')) logger.InfoLevel
                       "http request"
                       [("method", Method r'); ("path", Path r'); ("query", query);
                        ("status",
                         duration.itoa
                           (statusCode
                              (serve size (next r')
                                 (mkResponseWriter (SetHeader "X-Request-ID" requestID w)
                                    StatusOK 0))));
                        ("duration", duration.String_ (finish - start));
                        ("client_ip", clientip.getClientIP r');
                        ("user_agent", Get (ReqHeader r') "User-Agent");
                        ("bytes_written",
                         duration.itoa
                           (written
                              (serve size (next r')
                                 (mkResponseWriter (SetHeader "X-Request-ID" requestID w)
                                    StatusOK 0))))])).
  { unfold logger.log. cbn [logger.fields]. rewrite serve_statusCode.
    cbn [statusCode]. apply elem_of_app. right. set_solver. }
  assert (Hsent : rw_status
                    (ResponseWriter_
                       (serve size (next r')
                          (mkResponseWriter (SetHeader "X-Request-ID" requestID w)
                             StatusOK 0)))
                  = wire_status (next r')).
  { rewrite serve_sent. cbn [ResponseWriter_ SetHeader rw_status]. by rewrite Hw. }
  assert (Hwire : ∀ pre (ops : list (WriterOp payload)),
            wire_status pre = None → wire_status (pre ++ ops) = wire_status ops).
  { induction pre as [|[k v|c|c] pre IH]; intros ops; cbn; try discriminate; auto. }
  assert (Hcodes : ∀ (a b : list (WriterOp payload)),
            codes (a ++ b) = (codes a ++ codes b)%list).
  { intros a b. unfold codes. apply omap_app. }
  split; [exact Hin|]. split; [exact Hsent|]. split.
  - intros pre post code Hn Hpre Hpost. rewrite Hsent, Hn.
    rewrite (Hwire pre _ Hpre). split; [reflexivity|].
    rewrite Hn in Hin. rewrite Hcodes in Hin.
    change (codes (OpWriteHeader code :: post)) with (code :: codes post) in Hin.
    rewrite Hpost, last_snoc in Hin. exact Hin.
  - intros pre mid post code code' Hn Hpre Hpost. rewrite Hsent, Hn.
    rewrite (Hwire pre _ Hpre). split; [reflexivity|].
    rewrite Hn in Hin. rewrite Hcodes in Hin.
    change (codes (OpWriteHeader code :: mid ++ OpWriteHeader code' :: post))
      with (code :: codes (mid ++ OpWriteHeader code' :: post)) in Hin.
    rewrite Hcodes in Hin.
    change (codes (OpWriteHeader code' :: post)) with (code' :: codes post) in Hin.
    rewrite Hpost in Hin.
    replace (codes pre ++ code :: codes mid ++ [code'])%list
      with ((codes pre ++ code :: codes mid) ++ [code'])%list in Hin
      by (rewrite <- app_assoc; reflexivity).
    rewrite last_snoc in Hin. exact Hin.
Qed.

Lemma logged_status_is_last_code_witness :
  let next := λ _ : Request,
    [OpSetHeader "Content-Type" "text/plain"; OpWriteHeader 200;
     OpWrite (Bytes "partial"); @OpWriteHeader unit 500] in
  let r := mkRequest "GET" "/report" ∅ "192.0.2.4:5113" None in
  let res := LoggerMiddleware (λ _, 7) "4b1d" "" 0 1500000 next r (fresh ∅) in
  rw_status (fst res) = Some 200 ∧
  ("status", duration.itoa 500) ∈ logger.fields (snd res).
Proof.
  cbv zeta.
  refine (proj2 (proj2 (proj2
            (logged_status_is_last_code (λ _, 7) "4b1d" "" 0 1500000
               (λ _ : Request,
                  [OpSetHeader "Content-Type" "text/plain"; OpWriteHeader 200;
                   OpWrite (Bytes "partial"); @OpWriteHeader unit 500])
               (mkRequest "GET" "/report" ∅ "192.0.2.4:5113" None) (fresh ∅) _)))
            [OpSetHeader "Content-Type" "text/plain"] [OpWrite (Bytes "partial")] []
            200 500 _ _ _); reflexivity.
Defined.

End logmw_facts.
